(** * WELL-1024a generator of well-rng (rng.js): model and properties

    The development follows rng.js function by function.  JavaScript
    numbers that the generator handles are integer valued; they are
    modelled by [Z], with the 32-bit conversion of the bitwise operators
    and the binary64 rounding of [+] and [-] written out.  The one place
    where a fraction appears ([scale] and [random]) is modelled with
    IEEE-754 binary64 values ([spec_float] at precision 53).  Arrays live in a heap indexed by references, because
    [get_state] and [set_state] are about copying versus aliasing. *)

From Stdlib Require Import ZArith Lia.
From Stdlib Require Import Floats.SpecFloat.
From stdpp Require Import base option list gmap.

Local Open Scope Z_scope.

(** ** JavaScript values and 32-bit operators *)

Module JS.

(** What a slot of an array, or a property that may be absent, holds. *)
Inductive value : Type :=
| Undefined
| Num (z : Z).

(** ToInt32: wrap an integer to the signed 32-bit range. *)
Definition ToInt32 (z : Z) : Z := (z + 2 ^ 31) mod 2 ^ 32 - 2 ^ 31.

(** ToUint32: the same bit pattern read as an unsigned word. *)
Definition ToUint32 (z : Z) : Z := z mod 2 ^ 32.

(** ToNumber followed by ToInt32, as the bitwise operators do to an
    operand: [undefined] becomes NaN, which converts to 0. *)
Definition operand (v : value) : Z :=
  match v with
  | Undefined => 0
  | Num z => ToInt32 z
  end.

(** [a ^ b], [a & b], [a | b] *)
Definition bxor (a b : Z) : Z := Z.lxor (ToInt32 a) (ToInt32 b).
Definition band (a b : Z) : Z := Z.land (ToInt32 a) (ToInt32 b).
Definition bor (a b : Z) : Z := Z.lor (ToInt32 a) (ToInt32 b).

(** [a << k]: the count is taken modulo 32, high bits are discarded. *)
Definition shl (a k : Z) : Z :=
  ToInt32 (Z.shiftl (ToInt32 a) (Z.land k 31)).

(** [a >> k]: sign-propagating right shift, count modulo 32. *)
Definition sar (a k : Z) : Z := Z.shiftr (ToInt32 a) (Z.land k 31).

(** [a >>> k] is not used by rng.js; it is the reference point for the
    statement about [randBits]. *)
Definition shr (a k : Z) : Z := Z.shiftr (ToUint32 a) (Z.land k 31).

(** The exponent of the unit in the last place of the binary64 numbers
    around the integer [z]: 0 below 2^53, where every integer is a
    binary64 number, and [log2 |z| - 52] from there on. *)
Definition ulp_exp (z : Z) : Z := Z.max 0 (Z.log2 (Z.abs z) - 52).

(** Rounding of an integer to binary64, to nearest with ties to the even
    significand: the nearer of the two multiples of [2 ^ ulp_exp z]
    around [z].  (An overflow to Infinity, at magnitudes of 2^1024 and
    more, is not represented.) *)
Definition round53 (z : Z) : Z :=
  let e := ulp_exp z in
  let q := z / 2 ^ e in
  let r := z mod 2 ^ e in
  if decide (2 * r < 2 ^ e) then q * 2 ^ e
  else if decide (2 ^ e < 2 * r) then (q + 1) * 2 ^ e
  else if Z.even q then q * 2 ^ e else (q + 1) * 2 ^ e.

(** [x + y] and [x - y] on integer-valued numbers: the exact result,
    rounded. *)
Definition add (x y : Z) : Z := round53 (x + y).
Definition sub (x y : Z) : Z := round53 (x - y).

(** [x || 0] for an argument that is a number or omitted. *)
Definition or_zero (v : value) : Z :=
  match v with
  | Undefined => 0
  | Num z => if decide (z = 0) then 0 else z
  end.

(** [x % d] on integers: the sign follows the dividend, and a zero
    divisor gives NaN ([None]). *)
Definition rem (x d : Z) : option Z :=
  if decide (d = 0) then None else Some (Z.rem x d).

(** Arrays: [a[i]] for an integer index. *)
Definition get (a : list value) (i : Z) : value :=
  if decide (0 <= i) then default Undefined (a !! Z.to_nat i)
  else Undefined.

(** [a[i] = v] for an integer index: inside the array the slot is
    replaced; past the end the array grows, the skipped slots being
    holes that read as [undefined]; a negative index (or one above the
    array index range) names an ordinary property, which no read of
    rng.js ever looks at, and leaves the elements alone. *)
Definition set (a : list value) (i : Z) (v : value) : list value :=
  if decide (i < 0 \/ 2 ^ 32 - 1 <= i) then a
  else if decide (i < Z.of_nat (length a)) then <[Z.to_nat i := v]> a
  else a ++ replicate (Z.to_nat i - length a)%nat Undefined ++ [v].

End JS.

Abbreviation value := JS.value.
Abbreviation Undefined := JS.Undefined.
Abbreviation Num := JS.Num.

(** ** The heap of arrays *)

Abbreviation ref := positive.
Abbreviation heap := (gmap positive (list JS.value)).

(** [new Array] / [slice]: a fresh reference bound to the given contents. *)
Definition alloc (h : heap) (a : list value) : heap * ref :=
  let r := fresh (dom h) in (<[r := a]> h, r).

(** [a.slice(0)]: a new array with the elements of [a]. *)
Definition slice0 (h : heap) (a : ref) : heap * ref := alloc h (h !!! a).

(** ** The generator object *)

Record WELL : Type := mkWELL {
  _state : ref;          (* this._state: reference to the 32-word vector *)
  _n : Z;                (* this._n: the state pointer *)
  next_bit : Z;          (* this.next_bit: next free bit of the cache *)
  bit_state : value      (* this.bit_state: cached word, absent at first *)
}.

Inductive error : Type :=
| TypeError.

Inductive outcome (A : Type) : Type :=
| Ok (a : A)
| Throw (e : error).
Arguments Ok {A} a.
Arguments Throw {A} e.

(** WELL.prototype.positive_mask = Math.pow(2, 31) - 1 *)
Definition positive_mask : Z := 2 ^ 31 - 1.

(** ** The transition step (lines 98-109 of rng.js)

    [rand_core s n] works on the contents [s] of the state array and the
    pointer [n]; it gives the new contents, the new pointer and the word
    stored at the new pointer. *)
Definition rand_core (s : list value) (n : Z) : list value * Z * Z :=
  (* each of the four words is only ever an operand of a bitwise
     operator, so the operand conversion is applied at the read *)
  let z0 := JS.operand (JS.get s (JS.band (JS.add n 31) 31)) in
  let v_m1 := JS.operand (JS.get s (JS.band (JS.add n 3) 31)) in
  let v_m2 := JS.operand (JS.get s (JS.band (JS.add n 24) 31)) in
  let v_m3 := JS.operand (JS.get s (JS.band (JS.add n 10) 31)) in
  let z1 := JS.bxor z0 (JS.bxor v_m1 (JS.sar v_m1 8)) in
  let z2 := JS.bxor (JS.bxor (JS.bxor v_m2 (JS.shl v_m2 19)) v_m3)
                    (JS.shl v_m3 14) in
  let s1 := JS.set s n (Num (JS.bxor z1 z2)) in
  let n' := JS.band (JS.add n 31) 31 in
  let w := JS.bxor (JS.bxor (JS.bxor (JS.bxor (JS.bxor z0 (JS.shl z0 11)) z1)
                                     (JS.shl z1 7)) z2) (JS.shl z2 13) in
  let s2 := JS.set s1 n' (Num w) in
  (s2, n', w).

(** WELL.prototype.rand: the array is reached through [this._state] and
    updated in place; the result is read back from the slot just written
    (see [rand_core_readback]). *)
Definition rand (h : heap) (g : WELL) (incNeg : bool) : heap * WELL * Z :=
  let '(s2, n', w) := rand_core (h !!! _state g) (_n g) in
  (<[_state g := s2]> h,
   mkWELL (_state g) n' (next_bit g) (bit_state g),
   if incNeg then w else JS.band w positive_mask).

(** ** The float side: WELL.prototype.scale and random

    Numbers are IEEE-754 binary64: precision 53, exponent bound 1024. *)
Definition prec : Z := 53.
Definition emax : Z := 1024.

(** An integer as a binary64 number (exact below 2^53). *)
Definition of_int (z : Z) : spec_float := binary_normalize prec emax z 0 false.

(** WELL.prototype.scale = 1 / (Math.pow(2, 31)-1) *)
Definition scale : spec_float :=
  SFdiv prec emax (of_int 1) (SFsub prec emax (of_int (2 ^ 31)) (of_int 1)).

(** WELL.prototype.random *)
Definition random (h : heap) (g : WELL) (incNeg : bool)
  : heap * WELL * spec_float :=
  let '(h', g', r) := rand h g incNeg in
  (h', g', SFmul prec emax (of_int r) scale).

(** WELL.prototype.randInt; [None] is NaN (a zero [dist]). *)
Definition randInt (h : heap) (g : WELL) (a b : Z) : heap * WELL * option Z :=
  let dist := JS.sub (JS.add 1 b) a in
  let '(h', g', r) := rand h g false in
  (h', g', m ← JS.rem r dist; Some (JS.add m a)).

(** WELL.prototype.randBits *)
Definition randBits (h : heap) (g : WELL) (bits : Z) : heap * WELL * Z :=
  let mask := JS.sub (JS.shl 1 bits) 1 in
  if decide (JS.add bits (next_bit g) <= 32) then
    let unshift := next_bit g in
    (h,
     mkWELL (_state g) (_n g) (JS.add (next_bit g) bits) (bit_state g),
     JS.band (JS.sar (JS.operand (bit_state g)) unshift) mask)
  else
    let '(h', g', w) := rand h g true in
    (h',
     mkWELL (_state g') (_n g') bits (Num w),
     JS.band (JS.sar (JS.operand (Num w)) 0) mask).

(** ** The state store *)

(** WELL.prototype.get_state: [this._state.slice(0)] *)
Definition get_state (h : heap) (g : WELL) : heap * ref := slice0 h (_state g).

(** The body of WELL.prototype.set_state up to the two assignments: the
    length check, then the values that [this._n] and [this._state]
    receive.  A throw leaves the heap as it was. *)
Definition set_state_fields (h : heap) (state : ref) (sp : value)
  : heap * outcome (Z * ref) :=
  if decide (length (h !!! state) ≠ 32%nat) then (h, Throw TypeError)
  else
    let n := JS.or_zero sp in
    let '(h', r) := slice0 h state in
    (h', Ok (n, r)).

(** WELL.prototype.set_state on an existing generator: only [_n] and
    [_state] are assigned. *)
Definition set_state (h : heap) (g : WELL) (state : ref) (sp : value)
  : heap * WELL * outcome unit :=
  match set_state_fields h state sp with
  | (h', Throw e) => (h', g, Throw e)
  | (h', Ok (n, r)) => (h', mkWELL r n (next_bit g) (bit_state g), Ok tt)
  end.

(** WELL.prototype.genstate.  [rnd i] stands for the integer part of the
    i-th [Math.random()*Math.pow(2, 32)] of the host. *)
Definition genstate (rnd : nat -> Z) (h : heap) : heap * ref :=
  alloc h (map (fun i => Num (JS.bor 0 (rnd i))) (seq 0 32)).

(** [new WELL(state)]: the object starts without properties, [set_state]
    gives it [_n] and [_state], the constructor adds [next_bit];
    [bit_state] stays absent.  When [set_state] throws no object is
    returned. *)
Definition construct (rnd : nat -> Z) (h : heap) (state : option ref)
  : heap * outcome WELL :=
  let '(h0, state) :=
    match state with
    | None => genstate rnd h
    | Some r => (h, r)
    end in
  match set_state_fields h0 state (Num 0) with
  | (h1, Throw e) => (h1, Throw e)
  | (h1, Ok (n, r)) => (h1, Ok (mkWELL r n 32 Undefined))
  end.

(** ** Sequences of extraction calls *)

Inductive call : Type :=
| Rand (incNeg : bool)
| Random (incNeg : bool)
| RandInt (a b : Z)
| RandBits (bits : Z).

Inductive output : Type :=
| OInt (z : Z)
| ONaN
| OFloat (f : spec_float).

Definition exec (h : heap) (g : WELL) (c : call) : heap * WELL * output :=
  match c with
  | Rand incNeg => let '(h', g', r) := rand h g incNeg in (h', g', OInt r)
  | Random incNeg => let '(h', g', f) := random h g incNeg in (h', g', OFloat f)
  | RandInt a b =>
      let '(h', g', r) := randInt h g a b in
      (h', g', match r with Some z => OInt z | None => ONaN end)
  | RandBits bits => let '(h', g', r) := randBits h g bits in (h', g', OInt r)
  end.

Fixpoint run (h : heap) (g : WELL) (cs : list call) : heap * WELL * list output :=
  match cs with
  | [] => (h, g, [])
  | c :: cs' =>
      let '(h1, g1, o) := exec h g c in
      let '(h2, g2, os) := run h1 g1 cs' in
      (h2, g2, o :: os)
  end.

(** The contents of the generator's state array. *)
Definition vector (h : heap) (g : WELL) : list value := h !!! _state g.

(** A validly constructed generator: the vector is allocated and has 32
    entries. *)
Definition valid (h : heap) (g : WELL) : Prop :=
  exists s, h !! _state g = Some s /\ length s = 32%nat.

(** Reference vector: all zero except [k] at index [i]. *)
Definition zeros : list value := replicate 32 (Num 0).
Definition zeros_but (i : nat) (k : Z) : list value := <[i := Num k]> zeros.

(** The data-model invariant: a 32-entry vector and a pointer in
    [0, 32). *)
Definition inv (h : heap) (g : WELL) : Prop :=
  valid h g /\ 0 <= _n g < 32.

(** Two generators, possibly in different heaps and at different
    addresses, that agree on vector contents, pointer and bit cache. *)
Definition same (h1 : heap) (g1 : WELL) (h2 : heap) (g2 : WELL) : Prop :=
  vector h1 g1 = vector h2 g2 /\ _n g1 = _n g2 /\
  next_bit g1 = next_bit g2 /\ bit_state g1 = bit_state g2.

(** The same, leaving the bit cache out. *)
Definition same_state (h1 : heap) (g1 : WELL) (h2 : heap) (g2 : WELL) : Prop :=
  vector h1 g1 = vector h2 g2 /\ _n g1 = _n g2.

(** Calls that do not go through the bit cache. *)
Definition cache_free (c : call) : bool :=
  match c with
  | RandBits _ => false
  | _ => true
  end.

(** Concrete worlds used below: a heap holding one caller-owned array at
    reference 1. *)
Definition world (seed : list value) : heap := {[1%positive := seed]}.

(** [new WELL(seed)] in a world that holds only the caller's [seed]. *)
Definition constructed (seed : list value) : option (heap * WELL) :=
  match construct (fun _ => 0) (world seed) (Some 1%positive) with
  | (h, Ok g) => Some (h, g)
  | (_, Throw _) => None
  end.

(** A generator built from the all-zero seed, used for the calls
    [warmup], and then handed a new array holding [seed] through
    [set_state(seed, p)]. *)
Definition imported (warmup : list call) (seed : list value) (p : Z)
  : option (heap * WELL) :=
  match constructed zeros with
  | Some (h0, g0) =>
      let '(h1, g1, _) := run h0 g0 warmup in
      let '(h2, src) := alloc h1 seed in
      match set_state h2 g1 src (Num p) with
      | (h3, g3, Ok _) => Some (h3, g3)
      | (_, _, Throw _) => None
      end
  | None => None
  end.

(** The binary64 number 1. *)
Definition one : spec_float := of_int 1.

(** ** Notions used by the further properties *)

(** A slot that holds a number of the signed 32-bit range. *)
Definition int32_word (v : value) : Prop :=
  exists z, v = Num z /\ - 2 ^ 31 <= z < 2 ^ 31.

(** Two slots that a bitwise operator cannot tell apart: the same 32
    bits, whatever number carries them ([undefined] counts as 0). *)
Definition congruent (a b : value) : Prop := JS.operand a = JS.operand b.

(** Generators whose vectors agree slot by slot up to [congruent], with
    the same pointer and bit cache. *)
Definition sim (h1 : heap) (g1 : WELL) (h2 : heap) (g2 : WELL) : Prop :=
  Forall2 congruent (vector h1 g1) (vector h2 g2) /\ _n g1 = _n g2 /\
  next_bit g1 = next_bit g2 /\ bit_state g1 = bit_state g2.

(** Arguments of [randInt] for which the sums [1 + b], [1 + b - a] and
    [r % dist + a] (with [r] below 2^31) are all exact in binary64. *)
Definition exact_args (a b : Z) : Prop :=
  - 2 ^ 52 < a < 2 ^ 52 /\ - 2 ^ 52 < b < 2 ^ 52.

(** Calls inside the documented argument ranges, with [randInt]
    arguments of exact arithmetic. *)
Definition well_formed (c : call) : Prop :=
  match c with
  | RandInt a b => a <= b /\ exact_args a b
  | RandBits bits => 1 <= bits <= 31
  | _ => True
  end.

(** Calls whose [randInt] arguments are of exact arithmetic. *)
Definition exact_call (c : call) : Prop :=
  match c with
  | RandInt a b => exact_args a b
  | _ => True
  end.

(** The integer that a binary64 number stands for, when it is one. *)
Definition int_of (f : spec_float) : option Z :=
  match f with
  | S754_zero _ => Some 0
  | S754_finite s m e =>
      let v := if s then Z.neg m else Z.pos m in
      if decide (0 <= e) then Some (v * 2 ^ e)
      else if decide (v mod 2 ^ (- e) = 0) then Some (v / 2 ^ (- e))
      else None
  | _ => None
  end.

(** The documented range of an integer result (a float result is left
    unconstrained). *)
Definition in_range (c : call) (o : output) : Prop :=
  match c, o with
  | Rand false, OInt z => 0 <= z <= 2 ^ 31 - 1
  | Rand true, OInt z => - 2 ^ 31 <= z <= 2 ^ 31 - 1
  | RandInt a b, OInt z => a <= z <= b
  | RandBits bits, OInt z => 0 <= z <= 2 ^ bits - 1
  | Random _, OFloat _ => True
  | _, _ => False
  end.

(** The loop [for (var i = 0; i < 32; ++i) state[i] = 0 | (...)] of
    genstate and of bench.js, started at index [i] with [count] rounds
    to go. *)
Fixpoint fill_loop (rnd : nat -> Z) (state : list value) (i count : nat)
  : list value :=
  match count with
  | O => state
  | S count' =>
      fill_loop rnd (JS.set state (Z.of_nat i) (Num (JS.bor 0 (rnd i))))
                (S i) count'
  end.

(** genstate statement by statement: [new Array(32)] is 32 holes. *)
Definition genstate_loop (rnd : nat -> Z) : list value :=
  fill_loop rnd (replicate 32 Undefined) 0 32.

(** bench.js, lines 161-171: [var state = []], the same loop, and
    [new WELL(state)], in an otherwise empty heap. *)
Definition bench_state (rnd : nat -> Z) : list value := fill_loop rnd [] 0 32.

Definition bench_generator (rnd : nat -> Z) : heap * outcome WELL :=
  let '(h, state) := alloc ∅ (bench_state rnd) in
  construct rnd h (Some state).

(** The generator calls of the five timed loops of bench.js, [iter]
    rounds each: random(), rand(), randInt(2, 12), randBits(3),
    random(true). *)
Definition bench_calls (iter : nat) : list call :=
  replicate iter (Random false) ++ replicate iter (Rand false) ++
  replicate iter (RandInt 2 12) ++ replicate iter (RandBits 3) ++
  replicate iter (Random true).

(** What a call that bypasses the bit cache returns on the all-zero
    vector. *)
Definition zero_output (c : call) : output :=
  match c with
  | Rand _ => OInt 0
  | Random _ => OFloat (S754_zero false)
  | RandInt a b => if decide (1 + b - a = 0) then ONaN else OInt a
  | RandBits _ => OInt 0
  end.

(** The [bits]-wide field of the word [w] that starts at bit [off]:
    [(w >>> off) & (2^bits - 1)]. *)
Definition field (w off bits : Z) : Z := Z.land (JS.shr w off) (2 ^ bits - 1).

(** ** Facts about binary64 addition *)

Section Numbers.

Lemma ulp_exp_small (z : Z) : - 2 ^ 53 < z < 2 ^ 53 -> JS.ulp_exp z = 0.
Proof.
  intros Hz. unfold JS.ulp_exp.
  destruct (decide (Z.abs z = 0)) as [E|N].
  - rewrite E. reflexivity.
  - assert (Z.log2 (Z.abs z) < 53) by (apply Z.log2_lt_pow2; lia). lia.
Qed.

(** Below 2^53 every integer is a binary64 number. *)
Lemma round53_small (z : Z) : - 2 ^ 53 < z < 2 ^ 53 -> JS.round53 z = z.
Proof.
  intros Hz. unfold JS.round53. rewrite (ulp_exp_small z Hz).
  rewrite Z.pow_0_r, Z.div_1_r, Z.mod_1_r.
  destruct (decide (2 * 0 < 1)); lia.
Qed.

Lemma add_small (x y : Z) : - 2 ^ 53 < x + y < 2 ^ 53 -> JS.add x y = x + y.
Proof. apply round53_small. Qed.

Lemma sub_small (x y : Z) : - 2 ^ 53 < x - y < 2 ^ 53 -> JS.sub x y = x - y.
Proof. apply round53_small. Qed.

(** The rounded value is one of the two neighbouring multiples of the
    unit in the last place. *)
Lemma round53_between (z : Z) :
  z / 2 ^ JS.ulp_exp z * 2 ^ JS.ulp_exp z <= JS.round53 z
  <= (z / 2 ^ JS.ulp_exp z + 1) * 2 ^ JS.ulp_exp z.
Proof.
  unfold JS.round53.
  assert (0 < 2 ^ JS.ulp_exp z)
    by (apply Z.pow_pos_nonneg; unfold JS.ulp_exp; lia).
  set (E := 2 ^ JS.ulp_exp z) in *. set (q := z / E).
  destruct (decide (2 * (z mod E) < E)); [nia|].
  destruct (decide (E < 2 * (z mod E))); [nia|].
  destruct (Z.even q); nia.
Qed.

(** From 2^53 on a number is at least 2^52 units in the last place. *)
Lemma ulp_large (z : Z) :
  2 ^ 53 <= Z.abs z -> 2 ^ 52 * 2 ^ JS.ulp_exp z <= Z.abs z.
Proof.
  intros Hz. unfold JS.ulp_exp.
  assert (53 <= Z.log2 (Z.abs z)) by (apply Z.log2_le_pow2; lia).
  rewrite Z.max_r by lia. rewrite <- Z.pow_add_r by lia.
  replace (52 + (Z.log2 (Z.abs z) - 52)) with (Z.log2 (Z.abs z)) by lia.
  apply Z.log2_spec. lia.
Qed.

(** 2^53 itself is a binary64 number too. *)
Lemma round53_exact (z : Z) : - 2 ^ 53 <= z <= 2 ^ 53 -> JS.round53 z = z.
Proof.
  intros Hz.
  destruct (decide (z = 2 ^ 53)) as [->|]; [vm_compute; reflexivity|].
  destruct (decide (z = - 2 ^ 53)) as [->|]; [vm_compute; reflexivity|].
  apply round53_small. lia.
Qed.

(** From 2^53 on the rounded value is still large. *)
Lemma round53_large (z : Z) : 2 ^ 53 <= z -> 2 ^ 52 <= JS.round53 z.
Proof.
  intros Hz. pose proof (round53_between z) as [Hlo _].
  assert (Hp : 0 < 2 ^ JS.ulp_exp z)
    by (apply Z.pow_pos_nonneg; unfold JS.ulp_exp; lia).
  pose proof (ulp_large z) as Hu. rewrite Z.abs_eq in Hu by lia.
  specialize (Hu Hz).
  assert (2 ^ 52 <= z / 2 ^ JS.ulp_exp z)
    by (apply Z.div_le_lower_bound; lia).
  nia.
Qed.

(** Rounding does not cross a small threshold: comparing a sum with 32
    gives the same answer before and after rounding. *)
Lemma round53_le_32 (z : Z) : JS.round53 z <= 32 <-> z <= 32.
Proof.
  destruct (decide (- 2 ^ 53 < z < 2 ^ 53)) as [Hs|Hl].
  - rewrite round53_small by exact Hs. reflexivity.
  - pose proof (round53_between z) as [Hlo Hhi].
    assert (Hp : 0 < 2 ^ JS.ulp_exp z)
      by (apply Z.pow_pos_nonneg; unfold JS.ulp_exp; lia).
    pose proof (ulp_large z) as Hu.
    pose proof (Z.mul_div_le z (2 ^ JS.ulp_exp z) Hp) as Hd.
    pose proof (Z.mul_succ_div_gt z (2 ^ JS.ulp_exp z) Hp) as Hd'.
    destruct (decide (0 <= z)) as [Hz|Hz].
    + rewrite Z.abs_eq in Hu by lia. specialize (Hu ltac:(lia)).
      assert (2 ^ 52 <= z / 2 ^ JS.ulp_exp z)
        by (apply Z.div_le_lower_bound; lia).
      split; intros; nia.
    + rewrite Z.abs_neq in Hu by lia. specialize (Hu ltac:(lia)).
      split; intros; nia.
Qed.

Lemma add_le_32 (x y : Z) : JS.add x y <= 32 <-> x + y <= 32.
Proof. apply round53_le_32. Qed.

(** The rounding agrees with that of the binary64 operations on sample
    sums around 2^53 and 2^54, ties and negative values included. *)
Lemma round53_binary64_samples :
  Forall (fun z => int_of (of_int z) = Some (JS.round53 z))
    [0; 1; -1; 2 ^ 31; 2 ^ 53 - 1; 2 ^ 53; 2 ^ 53 + 1; 2 ^ 53 + 2;
     2 ^ 53 + 3; 2 ^ 53 + 10; 2 ^ 53 + 24; 2 ^ 53 + 31;
     - (2 ^ 53 + 1); - (2 ^ 53 + 3); - 2 ^ 53 + 31;
     2 ^ 54 - 1; 2 ^ 54 + 1; 2 ^ 54 + 2; 2 ^ 54 + 3; 2 ^ 54 + 6;
     - (2 ^ 54 - 1); - (2 ^ 54 + 2); - (2 ^ 54 + 6); 3 * 2 ^ 53 + 2;
     2 ^ 60 + 2 ^ 7; 2 ^ 60 + 2 ^ 7 + 1; 2 ^ 60 + 3 * 2 ^ 7;
     2 ^ 100 - 1; 2 ^ 1000 + 1; - (2 ^ 1023 + 2 ^ 970)].
Proof. repeat constructor. Qed.

End Numbers.

(** ** Facts about the 32-bit operators *)

Section Int32.

Lemma ToInt32_shift (z : Z) : exists q, JS.ToInt32 z = z + q * 2 ^ 32.
Proof.
  exists (- ((z + 2 ^ 31) / 2 ^ 32)). unfold JS.ToInt32.
  rewrite Z.mod_eq by lia. lia.
Qed.

Lemma ToUint32_shift (z : Z) : exists q, JS.ToUint32 z = z + q * 2 ^ 32.
Proof.
  exists (- (z / 2 ^ 32)). unfold JS.ToUint32.
  rewrite Z.mod_eq by lia. lia.
Qed.

Lemma ToInt32_range (z : Z) : - 2 ^ 31 <= JS.ToInt32 z < 2 ^ 31.
Proof.
  unfold JS.ToInt32.
  pose proof (Z.mod_pos_bound (z + 2 ^ 31) (2 ^ 32)). lia.
Qed.

Lemma ToInt32_small (z : Z) : - 2 ^ 31 <= z < 2 ^ 31 -> JS.ToInt32 z = z.
Proof.
  intros Hz. unfold JS.ToInt32. rewrite Z.mod_small; lia.
Qed.

(** The subtraction in [(1 << bits) - 1] is exact: the left operand is a
    32-bit number. *)
Lemma mask_exact (bits : Z) : JS.sub (JS.shl 1 bits) 1 = JS.shl 1 bits - 1.
Proof.
  apply sub_small. unfold JS.shl.
  pose proof (ToInt32_range (Z.shiftl (JS.ToInt32 1) (Z.land bits 31))). lia.
Qed.

(** Bits [off .. off+bits) of a word do not depend on which multiple of
    2^32 is added to it, as long as the field ends at or below bit 32. *)
Lemma field_shift (a q off bits : Z) :
  0 <= off -> 0 <= bits -> off + bits <= 32 ->
  ((a + q * 2 ^ 32) / 2 ^ off) mod 2 ^ bits = (a / 2 ^ off) mod 2 ^ bits.
Proof.
  intros Hoff Hbits Hle.
  assert (E32 : 2 ^ 32 = 2 ^ (32 - off - bits) * 2 ^ bits * 2 ^ off).
  { rewrite <- !Z.pow_add_r by lia. f_equal. lia. }
  rewrite E32.
  replace (a + q * (2 ^ (32 - off - bits) * 2 ^ bits * 2 ^ off))
    with (a + (q * 2 ^ (32 - off - bits) * 2 ^ bits) * 2 ^ off) by ring.
  assert (0 < 2 ^ off) by (apply Z.pow_pos_nonneg; lia).
  rewrite Z.div_add by lia.
  apply Z_mod_plus_full.
Qed.

Lemma land_mask_ToInt32 (z bits : Z) :
  0 <= bits <= 32 ->
  Z.land (JS.ToInt32 z) (Z.ones bits) = Z.land z (Z.ones bits).
Proof.
  intros Hb. rewrite !Z.land_ones by lia.
  destruct (ToInt32_shift z) as [q ->].
  pose proof (field_shift z q 0 bits) as F.
  rewrite !Z.pow_0_r, !Z.div_1_r in F. apply F; lia.
Qed.

Lemma count_small (k : Z) : 0 <= k < 32 -> Z.land k 31 = k.
Proof.
  intros Hk. change 31 with (Z.ones 5).
  rewrite Z.land_ones by lia. apply Z.mod_small. simpl. lia.
Qed.

Lemma small_cases (k : Z) :
  0 <= k < 32 -> exists n : nat, k = Z.of_nat n /\ (n < 32)%nat.
Proof. intros Hk. exists (Z.to_nat k). lia. Qed.

(** The mask of [randBits]: [(1 << bits) - 1], as the operand of [&].
    For 31 bits [1 << 31] is negative and the subtraction leaves the
    32-bit range; the conversion brings it back to 2^31 - 1. *)
Lemma mask_ones (bits : Z) :
  1 <= bits <= 31 -> JS.ToInt32 (JS.shl 1 bits - 1) = Z.ones bits.
Proof.
  intros Hb. destruct (small_cases bits) as (n & -> & Hn); [lia|].
  do 32 (destruct n as [|n]; [vm_compute; reflexivity|]). lia.
Qed.

(** [x & positive_mask] clears the sign bit. *)
Lemma band_positive_mask (w : Z) : JS.band w positive_mask = w mod 2 ^ 31.
Proof.
  unfold JS.band.
  replace (JS.ToInt32 positive_mask) with (Z.ones 31) by reflexivity.
  rewrite land_mask_ToInt32 by lia. apply Z.land_ones. lia.
Qed.

(** The index expressions [(n + k) & 31] stay inside the vector. *)
Lemma band_31_range (z : Z) : 0 <= JS.band z 31 < 32.
Proof.
  unfold JS.band.
  replace (JS.ToInt32 31) with (Z.ones 5) by reflexivity.
  rewrite Z.land_ones by lia. apply Z.mod_pos_bound. reflexivity.
Qed.

(** [>>] followed by [&] with a mask of [bits] ones is the logical
    shift, provided the field ends inside the word. *)
Lemma sar_mask_logical (x off bits : Z) :
  0 <= off -> 1 <= bits <= 31 -> off + bits <= 32 ->
  JS.band (JS.sar x off) (JS.shl 1 bits - 1)
  = Z.land (JS.shr x off) (2 ^ bits - 1).
Proof.
  intros Hoff Hb Hle. unfold JS.band, JS.sar, JS.shr.
  rewrite mask_ones by lia. rewrite count_small by lia.
  rewrite land_mask_ToInt32 by lia.
  replace (2 ^ bits - 1) with (Z.ones bits)
    by (rewrite Z.ones_equiv; lia).
  rewrite !Z.land_ones, !Z.shiftr_div_pow2 by lia.
  destruct (ToInt32_shift x) as [q ->].
  destruct (ToUint32_shift x) as [q' ->].
  rewrite !field_shift by lia. reflexivity.
Qed.

End Int32.

(** ** Facts about array reads and writes *)

Section Arrays.

Lemma set_length_inside (a : list value) (i : Z) (v : value) :
  0 <= i < Z.of_nat (length a) -> length (JS.set a i v) = length a.
Proof.
  intros Hi. unfold JS.set.
  destruct (decide (i < 0 \/ 2 ^ 32 - 1 <= i)); [reflexivity|].
  destruct (decide (i < Z.of_nat (length a))); [|lia].
  apply length_insert.
Qed.

(** Past the end the array grows to [i + 1] slots. *)
Lemma set_length_beyond (a : list value) (i : Z) (v : value) :
  Z.of_nat (length a) <= i < 2 ^ 32 - 1 ->
  Z.of_nat (length (JS.set a i v)) = i + 1.
Proof.
  intros Hi. unfold JS.set.
  destruct (decide (i < 0 \/ 2 ^ 32 - 1 <= i)); [lia|].
  destruct (decide (i < Z.of_nat (length a))); [lia|].
  rewrite !length_app, length_replicate. simpl. lia.
Qed.

Lemma get_set_same (a : list value) (i : Z) (v : value) :
  0 <= i < 2 ^ 32 - 1 -> JS.get (JS.set a i v) i = v.
Proof.
  intros Hi. unfold JS.get, JS.set.
  destruct (decide (0 <= i)); [|lia].
  destruct (decide (i < 0 \/ 2 ^ 32 - 1 <= i)); [lia|].
  destruct (decide (i < Z.of_nat (length a))).
  - rewrite list_lookup_insert_eq by lia. reflexivity.
  - rewrite lookup_app_r by lia.
    rewrite lookup_app_r by (rewrite length_replicate; lia).
    rewrite length_replicate.
    replace (Z.to_nat i - length a - (Z.to_nat i - length a))%nat
      with 0%nat by lia.
    reflexivity.
Qed.

End Arrays.

(** ** The transition step *)

Section Transition.

(** What [rand] returns is what sits in the array at the new pointer:
    the code reads [_state[_n]] back after the assignment. *)
Lemma rand_core_readback (s : list value) (n : Z) :
  let '(s2, n', w) := rand_core s n in JS.get s2 n' = Num w.
Proof.
  unfold rand_core. apply get_set_same.
  pose proof (band_31_range (JS.add n 31)). lia.
Qed.

Lemma rand_core_pointer (s : list value) (n : Z) :
  0 <= (rand_core s n).1.2 < 32.
Proof. unfold rand_core. simpl. apply band_31_range. Qed.

Lemma rand_core_length (s : list value) (n : Z) :
  length s = 32%nat -> 0 <= n < 32 ->
  length (rand_core s n).1.1 = 32%nat.
Proof.
  intros Hs Hn. unfold rand_core. cbn [fst snd].
  pose proof (band_31_range (JS.add n 31)) as Hn'.
  rewrite set_length_inside; rewrite set_length_inside; lia.
Qed.

(** [rand] spelled out field by field. *)
Lemma rand_unfold (h : heap) (g : WELL) (incNeg : bool) :
  rand h g incNeg =
  (<[_state g := (rand_core (vector h g) (_n g)).1.1]> h,
   mkWELL (_state g) (rand_core (vector h g) (_n g)).1.2
          (next_bit g) (bit_state g),
   if incNeg then (rand_core (vector h g) (_n g)).2
   else JS.band (rand_core (vector h g) (_n g)).2 positive_mask).
Proof.
  unfold rand, vector.
  destruct (rand_core (h !!! _state g) (_n g)) as [[s2 n'] w]. reflexivity.
Qed.

Lemma rand_false_range (h : heap) (g : WELL) :
  0 <= (rand h g false).2 <= 2 ^ 31 - 1.
Proof.
  rewrite rand_unfold. cbn [snd]. rewrite band_positive_mask.
  pose proof (Z.mod_pos_bound (rand_core (vector h g) (_n g)).2 (2 ^ 31)).
  lia.
Qed.

End Transition.

(** ** The methods in projection form *)

Section Methods.

Lemma random_unfold (h : heap) (g : WELL) (incNeg : bool) :
  random h g incNeg =
  ((rand h g incNeg).1, SFmul prec emax (of_int (rand h g incNeg).2) scale).
Proof.
  unfold random. destruct (rand h g incNeg) as [[h' g'] r]. reflexivity.
Qed.

Lemma randInt_unfold (h : heap) (g : WELL) (a b : Z) :
  randInt h g a b =
  ((rand h g false).1,
   m ← JS.rem (rand h g false).2 (JS.sub (JS.add 1 b) a); Some (JS.add m a)).
Proof.
  unfold randInt. destruct (rand h g false) as [[h' g'] r]. reflexivity.
Qed.

(** With arguments of exact arithmetic [randInt] is its formula over the
    integers. *)
Lemma rem_nonneg_le (r d : Z) : 0 <= r -> d ≠ 0 -> 0 <= Z.rem r d <= r.
Proof.
  intros Hr Hd. destruct (decide (0 < d)) as [Hp|Hn].
  - split; [apply Z.rem_nonneg; lia | apply Z.rem_le; lia].
  - replace d with (- (- d)) by lia. rewrite Z.rem_opp_r by lia.
    split; [apply Z.rem_nonneg; lia | apply Z.rem_le; lia].
Qed.

Lemma randInt_exact (h : heap) (g : WELL) (a b : Z) :
  exact_args a b ->
  (randInt h g a b).2 =
  (m ← JS.rem (rand h g false).2 (1 + b - a); Some (m + a)).
Proof.
  intros [Ha Hb]. pose proof (rand_false_range h g) as Hr.
  rewrite randInt_unfold. cbn [snd].
  rewrite (add_small 1 b) by lia. rewrite sub_small by lia.
  unfold JS.rem. destruct (decide (1 + b - a = 0)); [reflexivity|].
  cbn [mbind option_bind].
  pose proof (rem_nonneg_le (rand h g false).2 (1 + b - a)).
  rewrite add_small by lia. reflexivity.
Qed.

Lemma randInt_state (h : heap) (g : WELL) (a b : Z) :
  (randInt h g a b).1 = (rand h g false).1.
Proof.
  unfold randInt. destruct (rand h g false) as [[h' g'] r]. reflexivity.
Qed.

Lemma randBits_unfold (h : heap) (g : WELL) (bits : Z) :
  randBits h g bits =
  if decide (bits + next_bit g <= 32) then
    (h, mkWELL (_state g) (_n g) (JS.add (next_bit g) bits) (bit_state g),
     JS.band (JS.sar (JS.operand (bit_state g)) (next_bit g))
             (JS.shl 1 bits - 1))
  else
    ((rand h g true).1.1,
     mkWELL (_state (rand h g true).1.2) (_n (rand h g true).1.2) bits
            (Num (rand h g true).2),
     JS.band (JS.sar (JS.operand (Num (rand h g true).2)) 0)
             (JS.shl 1 bits - 1)).
Proof.
  unfold randBits. rewrite mask_exact.
  pose proof (add_le_32 bits (next_bit g)) as Hle.
  destruct (decide (bits + next_bit g <= 32)) as [H|H].
  - rewrite decide_True by (apply Hle; exact H). reflexivity.
  - rewrite decide_False by (intros H'; apply H, Hle, H').
    destruct (rand h g true) as [[h' g'] w]. reflexivity.
Qed.

Lemma rand_cache (h : heap) (g : WELL) (incNeg : bool) :
  _state (rand h g incNeg).1.2 = _state g /\
  next_bit (rand h g incNeg).1.2 = next_bit g /\
  bit_state (rand h g incNeg).1.2 = bit_state g.
Proof. rewrite rand_unfold. cbn. auto. Qed.

(** Every call either leaves heap, vector reference and pointer alone, or
    performs exactly the write-back of one transition step; the cache
    fields are the only other thing that may change. *)
Lemma exec_shape (h : heap) (g : WELL) (c : call) :
  exists nb bs,
    (exec h g c).1 = (h, mkWELL (_state g) (_n g) nb bs) \/
    (exec h g c).1 =
    (<[_state g := (rand_core (vector h g) (_n g)).1.1]> h,
     mkWELL (_state g) (rand_core (vector h g) (_n g)).1.2 nb bs).
Proof.
  destruct c as [b|b|a b|bits]; cbn [exec].
  - rewrite rand_unfold. eexists _, _. right. reflexivity.
  - rewrite random_unfold, rand_unfold. eexists _, _. right. reflexivity.
  - rewrite randInt_unfold, rand_unfold. eexists _, _. right. reflexivity.
  - rewrite randBits_unfold.
    destruct (decide (bits + next_bit g <= 32)).
    + eexists _, _. left. reflexivity.
    + rewrite rand_unfold. eexists _, _. right. reflexivity.
Qed.

Lemma vector_insert (h : heap) (g g' : WELL) (s : list value) :
  _state g' = _state g -> vector (<[_state g := s]> h) g' = s.
Proof.
  intros E. unfold vector. rewrite E. apply lookup_total_insert_eq.
Qed.

Lemma vector_lookup (h : heap) (g : WELL) (s : list value) :
  h !! _state g = Some s -> vector h g = s.
Proof. intros E. unfold vector. apply lookup_total_correct, E. Qed.

(** A call keeps the generator's array reference and touches no other
    array of the heap. *)
Lemma exec_frame (h : heap) (g : WELL) (c : call) :
  _state (exec h g c).1.2 = _state g /\
  forall r, r ≠ _state g -> (exec h g c).1.1 !! r = h !! r.
Proof.
  destruct (exec_shape h g c) as (nb & bs & [E|E]); rewrite E; cbn.
  - split; [reflexivity|]. intros; reflexivity.
  - split; [reflexivity|]. intros r Hr. apply lookup_insert_ne. congruence.
Qed.

Lemma run_cons (h : heap) (g : WELL) (c : call) (cs : list call) :
  run h g (c :: cs) =
  ((run (exec h g c).1.1 (exec h g c).1.2 cs).1,
   (exec h g c).2 :: (run (exec h g c).1.1 (exec h g c).1.2 cs).2).
Proof.
  cbn [run]. destruct (exec h g c) as [[h1 g1] o]. cbn [fst snd].
  destruct (run h1 g1 cs) as [[h2 g2] os]. reflexivity.
Qed.

Lemma run_frame (cs : list call) (h : heap) (g : WELL) :
  _state (run h g cs).1.2 = _state g /\
  forall r, r ≠ _state g -> (run h g cs).1.1 !! r = h !! r.
Proof.
  revert h g. induction cs as [|c cs IH]; intros h g.
  - cbn. split; [reflexivity|]. intros; reflexivity.
  - rewrite run_cons. cbn [fst snd].
    destruct (exec_frame h g c) as [E1 F1].
    destruct (IH (exec h g c).1.1 (exec h g c).1.2) as [E2 F2].
    split; [congruence|].
    intros r Hr. rewrite F2 by congruence. apply F1, Hr.
Qed.

(** Outputs and successor state are a function of vector contents,
    pointer and bit cache, not of the heap or the address. *)
Lemma rand_same_state (h1 : heap) (g1 : WELL) (h2 : heap) (g2 : WELL)
  (incNeg : bool) :
  same_state h1 g1 h2 g2 ->
  (rand h1 g1 incNeg).2 = (rand h2 g2 incNeg).2 /\
  same_state (rand h1 g1 incNeg).1.1 (rand h1 g1 incNeg).1.2
             (rand h2 g2 incNeg).1.1 (rand h2 g2 incNeg).1.2.
Proof.
  intros [Hv Hn]. rewrite !rand_unfold. cbn [fst snd]. unfold same_state.
  rewrite !vector_insert by reflexivity. cbn [_n].
  rewrite Hv, Hn. auto.
Qed.

Lemma exec_same (h1 : heap) (g1 : WELL) (h2 : heap) (g2 : WELL) (c : call) :
  same h1 g1 h2 g2 ->
  (exec h1 g1 c).2 = (exec h2 g2 c).2 /\
  same (exec h1 g1 c).1.1 (exec h1 g1 c).1.2
       (exec h2 g2 c).1.1 (exec h2 g2 c).1.2.
Proof.
  intros (Hv & Hn & Hnb & Hbs).
  assert (Hss : same_state h1 g1 h2 g2) by (split; assumption).
  assert (Hr : forall b,
    (rand h1 g1 b).2 = (rand h2 g2 b).2 /\
    same (rand h1 g1 b).1.1 (rand h1 g1 b).1.2
         (rand h2 g2 b).1.1 (rand h2 g2 b).1.2).
  { intros b. destruct (rand_same_state h1 g1 h2 g2 b Hss) as (Ho & Hv' & Hn').
    destruct (rand_cache h1 g1 b) as (_ & Hnb1 & Hbs1).
    destruct (rand_cache h2 g2 b) as (_ & Hnb2 & Hbs2).
    unfold same. repeat split; congruence. }
  destruct c as [b|b|a b|bits]; cbn [exec].
  - destruct (Hr b) as [Ho Hs].
    destruct (rand h1 g1 b) as [[? ?] ?], (rand h2 g2 b) as [[? ?] ?].
    cbn [fst snd] in *. subst. auto.
  - rewrite !random_unfold. destruct (Hr b) as [Ho Hs].
    destruct (rand h1 g1 b) as [[? ?] ?], (rand h2 g2 b) as [[? ?] ?].
    cbn [fst snd] in *. subst. auto.
  - rewrite !randInt_unfold. destruct (Hr false) as [Ho Hs].
    destruct (rand h1 g1 false) as [[? ?] ?], (rand h2 g2 false) as [[? ?] ?].
    cbn [fst snd] in *. subst. auto.
  - rewrite !randBits_unfold. rewrite Hnb, Hbs.
    destruct (decide (bits + next_bit g2 <= 32)).
    + cbn [fst snd]. split; [reflexivity|]. unfold same, vector in *.
      cbn [_state _n next_bit bit_state]. auto.
    + destruct (Hr true) as (Ho & Hv' & Hn' & _).
      destruct (rand h1 g1 true) as [[? ?] ?], (rand h2 g2 true) as [[? ?] ?].
      cbn [fst snd] in *. subst. unfold same, vector in *.
      cbn [_state _n next_bit bit_state]. auto.
Qed.

Lemma run_same (cs : list call) (h1 : heap) (g1 : WELL) (h2 : heap) (g2 : WELL) :
  same h1 g1 h2 g2 ->
  (run h1 g1 cs).2 = (run h2 g2 cs).2 /\
  same (run h1 g1 cs).1.1 (run h1 g1 cs).1.2
       (run h2 g2 cs).1.1 (run h2 g2 cs).1.2.
Proof.
  revert h1 g1 h2 g2. induction cs as [|c cs IH]; intros h1 g1 h2 g2 Hs.
  - cbn. auto.
  - rewrite !run_cons. cbn [fst snd].
    destruct (exec_same h1 g1 h2 g2 c Hs) as [Ho Hs'].
    destruct (IH _ _ _ _ Hs') as [Hos Hs''].
    rewrite Ho, Hos. auto.
Qed.

(** Without [randBits] the bit cache plays no part. *)
Lemma exec_same_state (h1 : heap) (g1 : WELL) (h2 : heap) (g2 : WELL)
  (c : call) :
  cache_free c = true -> same_state h1 g1 h2 g2 ->
  (exec h1 g1 c).2 = (exec h2 g2 c).2 /\
  same_state (exec h1 g1 c).1.1 (exec h1 g1 c).1.2
             (exec h2 g2 c).1.1 (exec h2 g2 c).1.2.
Proof.
  intros Hc Hss.
  destruct c as [b|b|a b|bits]; cbn [exec]; try discriminate Hc.
  - destruct (rand_same_state h1 g1 h2 g2 b Hss) as (Ho & Hs').
    destruct (rand h1 g1 b) as [[? ?] ?], (rand h2 g2 b) as [[? ?] ?].
    cbn in *. subst. auto.
  - rewrite !random_unfold.
    destruct (rand_same_state h1 g1 h2 g2 b Hss) as (Ho & Hs').
    destruct (rand h1 g1 b) as [[? ?] ?], (rand h2 g2 b) as [[? ?] ?].
    cbn [fst snd] in *. subst. auto.
  - rewrite !randInt_unfold.
    destruct (rand_same_state h1 g1 h2 g2 false Hss) as (Ho & Hs').
    destruct (rand h1 g1 false) as [[? ?] ?], (rand h2 g2 false) as [[? ?] ?].
    cbn [fst snd] in *. subst. auto.
Qed.

Lemma run_same_state (cs : list call) (h1 : heap) (g1 : WELL) (h2 : heap)
  (g2 : WELL) :
  forallb cache_free cs = true -> same_state h1 g1 h2 g2 ->
  (run h1 g1 cs).2 = (run h2 g2 cs).2 /\
  same_state (run h1 g1 cs).1.1 (run h1 g1 cs).1.2
             (run h2 g2 cs).1.1 (run h2 g2 cs).1.2.
Proof.
  revert h1 g1 h2 g2. induction cs as [|c cs IH]; intros h1 g1 h2 g2 Hc Hs.
  - cbn. auto.
  - cbn [forallb] in Hc. apply andb_prop in Hc as [Hc Hcs].
    rewrite !run_cons. cbn [fst snd].
    destruct (exec_same_state h1 g1 h2 g2 c Hc Hs) as [Ho Hs'].
    destruct (IH _ _ _ _ Hcs Hs') as [Hos Hs''].
    rewrite Ho, Hos. auto.
Qed.

(** Replacing the contents of an array that is not the generator's own
    changes neither the vector nor any later output. *)
Lemma mutate_other (h : heap) (g : WELL) (r : ref) (a' : list value)
  (cs : list call) :
  r ≠ _state g ->
  vector (<[r := a']> h) g = vector h g /\
  (run (<[r := a']> h) g cs).2 = (run h g cs).2.
Proof.
  intros Hr.
  assert (Hv : vector (<[r := a']> h) g = vector h g).
  { unfold vector. apply lookup_total_insert_ne. exact Hr. }
  split; [exact Hv|].
  apply run_same. unfold same. auto.
Qed.

(** [set_state] never touches the bit cache. *)
Lemma set_state_keeps_cache (h : heap) (g : WELL) (src : ref) (sp : value) :
  next_bit (set_state h g src sp).1.2 = next_bit g /\
  bit_state (set_state h g src sp).1.2 = bit_state g.
Proof.
  unfold set_state, set_state_fields.
  destruct (decide (length (h !!! src) ≠ 32%nat)); cbn; auto.
Qed.

(** What a successful [set_state] leaves behind. *)
Lemma set_state_ok (h : heap) (g : WELL) (src : ref) (sp : value)
  (h1 : heap) (g1 : WELL) :
  set_state h g src sp = (h1, g1, Ok tt) ->
  src ∈ dom h /\
  length (h !!! src) = 32%nat /\
  h1 = <[fresh (dom h) := h !!! src]> h /\
  g1 = mkWELL (fresh (dom h)) (JS.or_zero sp) (next_bit g) (bit_state g).
Proof.
  unfold set_state, set_state_fields, slice0, alloc.
  destruct (decide (length (h !!! src) ≠ 32%nat)) as [Hne|He];
    [discriminate|].
  intros [= <- <-].
  assert (Hlen : length (h !!! src) = 32%nat)
    by (destruct (decide (length (h !!! src) = 32%nat)); tauto).
  split; [|auto].
  apply elem_of_dom. destruct (h !! src) as [s|] eqn:Hs; [eauto|].
  rewrite lookup_total_alt, Hs in Hlen. discriminate Hlen.
Qed.

(** Generators that received the same vector contents and pointer, and
    whose bit caches agree (as they do when both are newly constructed),
    give the same outputs for the same calls. *)
Lemma import_deterministic (h1 : heap) (g1 : WELL) (src1 : ref) (h2 : heap)
  (g2 : WELL) (src2 : ref) (sp : value) (h1' : heap) (g1' : WELL)
  (h2' : heap) (g2' : WELL) (cs : list call) :
  h1 !!! src1 = h2 !!! src2 ->
  next_bit g1 = next_bit g2 -> bit_state g1 = bit_state g2 ->
  set_state h1 g1 src1 sp = (h1', g1', Ok tt) ->
  set_state h2 g2 src2 sp = (h2', g2', Ok tt) ->
  (run h1' g1' cs).2 = (run h2' g2' cs).2.
Proof.
  intros Hsrc Hnb Hbs E1 E2.
  apply set_state_ok in E1 as (_ & _ & -> & ->).
  apply set_state_ok in E2 as (_ & _ & -> & ->).
  apply run_same. unfold same, vector. cbn [_state _n next_bit bit_state].
  rewrite !lookup_total_insert_eq. auto.
Qed.

(** Without [randBits] among the calls the caches need not agree. *)
Lemma import_deterministic_cache_free (h1 : heap) (g1 : WELL) (src1 : ref)
  (h2 : heap) (g2 : WELL) (src2 : ref) (sp : value) (h1' : heap)
  (g1' : WELL) (h2' : heap) (g2' : WELL) (cs : list call) :
  h1 !!! src1 = h2 !!! src2 ->
  forallb cache_free cs = true ->
  set_state h1 g1 src1 sp = (h1', g1', Ok tt) ->
  set_state h2 g2 src2 sp = (h2', g2', Ok tt) ->
  (run h1' g1' cs).2 = (run h2' g2' cs).2.
Proof.
  intros Hsrc Hcs E1 E2.
  apply set_state_ok in E1 as (_ & _ & -> & ->).
  apply set_state_ok in E2 as (_ & _ & -> & ->).
  apply run_same_state; [exact Hcs|].
  unfold same_state, vector. cbn [_state _n].
  rewrite !lookup_total_insert_eq. auto.
Qed.

(** The cache offset stays within [0, 32] as long as [randBits] is asked
    for 1 to 31 bits; a new generator starts at 32. *)
Lemma randBits_offset (h : heap) (g : WELL) (bits : Z) :
  1 <= bits <= 31 -> 0 <= next_bit g <= 32 ->
  0 <= next_bit (randBits h g bits).1.2 <= 32.
Proof.
  intros Hb Hnb. rewrite randBits_unfold.
  destruct (decide (bits + next_bit g <= 32)); cbn [fst snd next_bit];
    [rewrite add_small|]; lia.
Qed.

(** A pointer outside [0, 32) is used as it is by the first write of the
    next step: with pointer 40 the array grows to 41 entries. *)
Lemma pointer_40_grows :
  length (rand_core zeros 40).1.1 = 41%nat /\ (rand_core zeros 40).1.2 = 7.
Proof. vm_compute. split; reflexivity. Qed.

End Methods.

(** * Properties *)

(** C1. Reference vector 2: when the state vector is all zero except for
    a 1 at index 3 and the pointer is 0, [rand(false)] returns 129. *)
Theorem rand_reference_vector_2 (h : heap) (g : WELL) :
  vector h g = zeros_but 3 1 -> _n g = 0 -> (rand h g false).2 = 129.
Proof.
  intros Hv Hn. rewrite rand_unfold, Hv, Hn. vm_compute. reflexivity.
Qed.

Lemma rand_reference_vector_2_witness :
  (rand {[1%positive := zeros_but 3 1]} (mkWELL 1 0 32 Undefined) false).2
  = 129.
Proof.
  apply rand_reference_vector_2; reflexivity.
Defined.

(** C2 (as the code has it). A successful [set_state] stores the pointer
    argument as given: the pointer becomes [p] itself, which is
    [p mod 32] when [p] already lies in [0, 32). *)
Theorem set_state_pointer (h : heap) (g : WELL) (src : ref) (p : Z) :
  length (h !!! src) = 32%nat ->
  exists h' g',
    set_state h g src (Num p) = (h', g', Ok tt) /\
    _n g' = p /\
    (0 <= p < 32 -> _n g' = p mod 32).
Proof.
  intros Hlen. unfold set_state, set_state_fields.
  destruct (decide (length (h !!! src) ≠ 32%nat)) as [Hne|_]; [congruence|].
  unfold slice0, alloc. eexists _, _. split; [reflexivity|]. cbn [_n].
  assert (E : JS.or_zero (Num p) = p).
  { unfold JS.or_zero. destruct (decide (p = 0)); congruence. }
  split; [exact E|]. intros Hp. rewrite E, Z.mod_small; lia.
Qed.

Lemma set_state_pointer_witness :
  exists h' g',
    set_state (world zeros) (mkWELL 1 0 32 Undefined) 1%positive (Num 7)
    = (h', g', Ok tt) /\
    _n g' = 7 /\
    (0 <= 7 < 32 -> _n g' = 7 mod 32).
Proof.
  apply (set_state_pointer (world zeros) (mkWELL 1 0 32 Undefined) 1%positive 7).
  reflexivity.
Defined.

(** C2 as stated fails: importing with pointer 40 succeeds and leaves
    the pointer at 40, not at 40 mod 32 = 8. *)
Lemma set_state_pointer_unreduced :
  let '(_, g', r) :=
    set_state (world zeros) (mkWELL 1 0 32 Undefined) 1%positive (Num 40) in
  r = Ok tt /\ _n g' = 40 /\ _n g' <> 40 mod 32.
Proof. vm_compute. repeat split; congruence. Qed.

(** C6. A vector whose length is not 32 is rejected with the one error
    there is, both by [set_state] and by the constructor; nothing is
    mutated: heap and generator come back as they went in, and the
    constructor returns no object. *)
Theorem invalid_length_rejected
  (rnd : nat -> Z) (h : heap) (g : WELL) (src : ref) (sp : value) :
  length (h !!! src) ≠ 32%nat ->
  set_state h g src sp = (h, g, Throw TypeError) /\
  construct rnd h (Some src) = (h, Throw TypeError).
Proof.
  intros Hlen. unfold construct, set_state, set_state_fields.
  destruct (decide (length (h !!! src) ≠ 32%nat)) as [_|Heq]; [|contradiction].
  split; reflexivity.
Qed.

Lemma invalid_length_rejected_witness :
  set_state (world (replicate 31 (Num 0))) (mkWELL 1 5 32 Undefined)
            1%positive (Num 3)
  = (world (replicate 31 (Num 0)), mkWELL 1 5 32 Undefined, Throw TypeError) /\
  construct (fun _ => 0) (world (replicate 31 (Num 0))) (Some 1%positive)
  = (world (replicate 31 (Num 0)), Throw TypeError).
Proof.
  apply (invalid_length_rejected (fun _ => 0) (world (replicate 31 (Num 0)))
           (mkWELL 1 5 32 Undefined) 1%positive (Num 3)).
  vm_compute. lia.
Defined.

(** C7 (as the code has it). For [a <= b] with [-2^53 < a] and
    [b < 2^53], the safe integers of JavaScript, [randInt(a, b)]
    advances the generator exactly as [rand(false)] does, returns
    [rand(false) mod (1 + b - a) + a], and that value lies in [a, b];
    when [a = b] it is [a] whatever the state. *)
Theorem randInt_range (h : heap) (g : WELL) (a b : Z) :
  a <= b -> - 2 ^ 53 < a -> b < 2 ^ 53 ->
  (randInt h g a b).1 = (rand h g false).1 /\
  (randInt h g a b).2 = Some ((rand h g false).2 mod (1 + b - a) + a) /\
  a <= (rand h g false).2 mod (1 + b - a) + a <= b /\
  (a = b -> (randInt h g a b).2 = Some a).
Proof.
  intros Hab Ha Hb. pose proof (rand_false_range h g) as Hr.
  assert (E : (randInt h g a b).2
              = Some ((rand h g false).2 mod (1 + b - a) + a)).
  { rewrite randInt_unfold. cbn [snd].
    generalize dependent ((rand h g false).2). intros r Hr.
    replace (JS.add 1 b) with (1 + b)
      by (symmetry; apply round53_exact; lia).
    destruct (decide (1 + b - a < 2 ^ 53)) as [Hs|Hl].
    - (* the distance is exact *)
      rewrite sub_small by lia. unfold JS.rem.
      destruct (decide (1 + b - a = 0)); [lia|].
      cbn [mbind option_bind]. rewrite Z.rem_mod_nonneg by lia.
      pose proof (Z.mod_pos_bound r (1 + b - a)).
      rewrite add_small by lia. reflexivity.
    - (* the distance is rounded, but stays above every result of rand *)
      pose proof (round53_large (1 + b - a)) as Hd. unfold JS.sub, JS.rem.
      destruct (decide (JS.round53 (1 + b - a) = 0)); [lia|].
      cbn [mbind option_bind]. rewrite Z.rem_small by lia.
      rewrite Z.mod_small by lia. rewrite add_small by lia. reflexivity. }
  split; [apply randInt_state|]. split; [exact E|]. split.
  - pose proof (Z.mod_pos_bound (rand h g false).2 (1 + b - a)). lia.
  - intros ->. rewrite E. replace (1 + b - b) with 1 by lia.
    rewrite Z.mod_1_r. reflexivity.
Qed.

Lemma randInt_range_witness :
  (5 <= 5 /\ - 2 ^ 53 < 5 /\ 5 < 2 ^ 53) /\
  (randInt (world zeros) (mkWELL 1 0 32 Undefined) 5 5).2 = Some 5.
Proof.
  split; [lia|].
  apply (randInt_range (world zeros) (mkWELL 1 0 32 Undefined) 5 5);
    [lia | lia | lia | reflexivity].
Defined.

(** C7 as stated fails from 2^53 on.  In [randInt(2^53, 2^53)] the sum
    [1 + b] rounds to 2^53, the distance is 0 and the result is NaN,
    not 2^53; the generator has nevertheless made its step. *)
Lemma randInt_2_53_is_NaN :
  2 ^ 53 <= 2 ^ 53 /\
  JS.add 1 (2 ^ 53) = 2 ^ 53 /\
  (randInt (world zeros) (mkWELL 1 0 32 Undefined) (2 ^ 53) (2 ^ 53)).2 = None /\
  (randInt (world zeros) (mkWELL 1 0 32 Undefined) (2 ^ 53) (2 ^ 53)).2
  <> Some ((rand (world zeros) (mkWELL 1 0 32 Undefined) false).2
           mod (1 + 2 ^ 53 - 2 ^ 53) + 2 ^ 53).
Proof. vm_compute. repeat split; congruence. Qed.

(** C5. For [1 <= bits <= 31] and a cache offset that is not negative:
    when offset + bits <= 32, [randBits] leaves heap, vector and pointer
    alone, advances the offset by [bits] and returns the cached word
    shifted right logically by the old offset, masked to [bits] bits;
    otherwise it stores the word of [rand(true)] in the cache, sets the
    offset to [bits] and returns that word masked to [bits] bits.  The
    result lies in [0, 2^bits - 1] either way. *)
Theorem randBits_contract (h : heap) (g : WELL) (bits : Z) :
  1 <= bits <= 31 -> 0 <= next_bit g ->
  (next_bit g + bits <= 32 ->
   randBits h g bits =
   (h,
    mkWELL (_state g) (_n g) (next_bit g + bits) (bit_state g),
    Z.land (JS.shr (JS.operand (bit_state g)) (next_bit g)) (2 ^ bits - 1))) /\
  (32 < next_bit g + bits ->
   let '(h1, g1, w) := rand h g true in
   randBits h g bits =
   (h1, mkWELL (_state g1) (_n g1) bits (Num w), Z.land w (2 ^ bits - 1))) /\
  0 <= (randBits h g bits).2 <= 2 ^ bits - 1.
Proof.
  intros Hb Hoff.
  assert (Hones : 2 ^ bits - 1 = Z.ones bits)
    by (rewrite Z.ones_equiv; lia).
  assert (Hpos : 0 < 2 ^ bits) by (apply Z.pow_pos_nonneg; lia).
  assert (Hrefill : forall w,
    JS.band (JS.sar (JS.operand (Num w)) 0) (JS.shl 1 bits - 1)
    = Z.land w (2 ^ bits - 1)).
  { intros w. unfold JS.band, JS.sar, JS.operand.
    rewrite mask_ones by lia. change (Z.land 0 31) with 0.
    rewrite Z.shiftr_0_r, Hones.
    rewrite !land_mask_ToInt32 by lia. reflexivity. }
  split; [|split].
  - intros Hle. rewrite randBits_unfold.
    destruct (decide (bits + next_bit g <= 32)) as [_|Hn]; [|lia].
    rewrite sar_mask_logical by lia. rewrite add_small by lia. reflexivity.
  - intros Hgt. rewrite randBits_unfold.
    destruct (decide (bits + next_bit g <= 32)) as [Hn|_]; [lia|].
    destruct (rand h g true) as [[h1 g1] w]. cbn [fst snd].
    rewrite Hrefill. reflexivity.
  - rewrite randBits_unfold.
    destruct (decide (bits + next_bit g <= 32)) as [Hle|Hgt].
    + cbn [snd]. rewrite sar_mask_logical by lia.
      rewrite Hones, Z.land_ones by lia.
      pose proof (Z.mod_pos_bound
        (JS.shr (JS.operand (bit_state g)) (next_bit g)) (2 ^ bits) Hpos).
      lia.
    + destruct (rand h g true) as [[h1 g1] w]. cbn [snd].
      rewrite Hrefill, Hones, Z.land_ones by lia.
      pose proof (Z.mod_pos_bound w (2 ^ bits) Hpos). lia.
Qed.

Lemma randBits_contract_witness :
  (1 <= 3 <= 31 /\ 0 <= next_bit (mkWELL 1 0 29 (Num (-1)))) /\
  randBits (world zeros) (mkWELL 1 0 29 (Num (-1))) 3
  = (world zeros, mkWELL 1 0 32 (Num (-1)), 7).
Proof.
  split; [cbn; lia|].
  apply (randBits_contract (world zeros) (mkWELL 1 0 29 (Num (-1))) 3);
    cbn; lia.
Defined.

(** C10. With a 32-entry vector and a pointer in [0, 32), every call of
    [rand], [random], [randInt] or [randBits] leaves a 32-entry vector
    and a pointer in [0, 32); no array of the heap is created or grows. *)
Theorem exec_preserves_inv (h : heap) (g : WELL) (c : call) :
  inv h g ->
  inv (exec h g c).1.1 (exec h g c).1.2 /\
  length (vector (exec h g c).1.1 (exec h g c).1.2) = 32%nat /\
  dom (exec h g c).1.1 = dom h.
Proof.
  intros [(s & Hs & Hlen) Hn].
  assert (Hv : vector h g = s) by (apply vector_lookup, Hs).
  destruct (exec_shape h g c) as (nb & bs & [E|E]); rewrite E; cbn [fst snd].
  - split; [|split; [|reflexivity]].
    + split; [exists s; cbn [_state]; auto | exact Hn].
    + unfold vector. cbn [_state]. fold (vector h g). congruence.
  - pose proof (rand_core_length (vector h g) (_n g)) as Hl.
    rewrite Hv in Hl. specialize (Hl Hlen Hn). rewrite Hv.
    split; [|split].
    + split.
      * eexists. cbn [_state]. rewrite lookup_insert_eq. split; [reflexivity|].
        exact Hl.
      * cbn [_n]. apply rand_core_pointer.
    + rewrite vector_insert by reflexivity. exact Hl.
    + apply dom_insert_lookup_L. eauto.
Qed.

Lemma exec_preserves_inv_witness :
  inv (world zeros) (mkWELL 1 0 32 Undefined) /\
  inv (exec (world zeros) (mkWELL 1 0 32 Undefined) (RandBits 3)).1.1
      (exec (world zeros) (mkWELL 1 0 32 Undefined) (RandBits 3)).1.2.
Proof.
  assert (H : inv (world zeros) (mkWELL 1 0 32 Undefined)).
  { split; [exists zeros; split; reflexivity | cbn; lia]. }
  split; [exact H|].
  apply (exec_preserves_inv (world zeros) (mkWELL 1 0 32 Undefined)
           (RandBits 3) H).
Defined.

(** C9. [get_state] hands out a new array with the vector's contents,
    and [set_state], given any 32-entry array, succeeds and keeps a new
    array with the argument's contents.  Whatever is later written into
    the exported array, or into the caller's array after the import, and
    whenever that happens, the generator's vector and all its later
    outputs are the same as without the write. *)
Theorem copy_isolation (h : heap) (g : WELL) :
  valid h g ->
  ((get_state h g).2 ≠ _state g /\
   (get_state h g).1 !! (get_state h g).2 = Some (vector h g) /\
   vector (get_state h g).1 g = vector h g /\
   forall (cs1 : list call) (a' : list value) (cs2 : list call),
     let h2 := (run (get_state h g).1 g cs1).1.1 in
     let g2 := (run (get_state h g).1 g cs1).1.2 in
     vector (<[(get_state h g).2 := a']> h2) g2 = vector h2 g2 /\
     (run (<[(get_state h g).2 := a']> h2) g2 cs2).2 = (run h2 g2 cs2).2) /\
  (forall (src : ref) (sp : value) (s : list value),
     h !! src = Some s -> length s = 32%nat ->
     exists (h1 : heap) (g1 : WELL),
       set_state h g src sp = (h1, g1, Ok tt) /\
       _state g1 ≠ src /\
       vector h1 g1 = s /\
       h1 !! src = Some s /\
       forall (cs1 : list call) (a' : list value) (cs2 : list call),
         let h2 := (run h1 g1 cs1).1.1 in
         let g2 := (run h1 g1 cs1).1.2 in
         vector (<[src := a']> h2) g2 = vector h2 g2 /\
         (run (<[src := a']> h2) g2 cs2).2 = (run h2 g2 cs2).2).
Proof.
  intros (s & Hs & Hlen).
  pose proof (is_fresh (dom h)) as Hfresh.
  split.
  - unfold get_state, slice0, alloc. cbn [fst snd].
    assert (Hne : fresh (dom h) ≠ _state g).
    { intros E. apply Hfresh. rewrite E. apply elem_of_dom. eauto. }
    split; [exact Hne|]. split; [apply lookup_insert_eq|].
    split; [unfold vector; apply lookup_total_insert_ne; exact Hne|].
    intros cs1 a' cs2. apply mutate_other.
    rewrite (proj1 (run_frame cs1 _ g)). exact Hne.
  - intros src sp s' Hsrc Hlen'.
    assert (Et : h !!! src = s') by (apply lookup_total_correct, Hsrc).
    assert (Hne : fresh (dom h) ≠ src).
    { intros E. apply Hfresh. rewrite E. apply elem_of_dom. eauto. }
    assert (Es : set_state h g src sp =
                 (<[fresh (dom h) := s']> h,
                  mkWELL (fresh (dom h)) (JS.or_zero sp)
                         (next_bit g) (bit_state g), Ok tt)).
    { unfold set_state, set_state_fields, slice0, alloc. rewrite Et.
      destruct (decide (length s' ≠ 32%nat)); [contradiction|]. reflexivity. }
    eexists _, _. split; [exact Es|].
    cbn [_state]. split; [exact Hne|].
    split; [unfold vector; cbn [_state]; apply lookup_total_insert_eq|].
    split; [rewrite lookup_insert_ne by exact Hne; exact Hsrc|].
    intros cs1 a' cs2. apply mutate_other.
    rewrite (proj1 (run_frame cs1 _ _)). cbn [_state]. congruence.
Qed.

Lemma copy_isolation_witness :
  valid (world zeros) (mkWELL 1 0 32 Undefined) /\
  (get_state (world zeros) (mkWELL 1 0 32 Undefined)).2
  ≠ _state (mkWELL 1 0 32 Undefined) /\
  (world (zeros_but 3 1) !! 1%positive = Some (zeros_but 3 1) /\
   length (zeros_but 3 1) = 32%nat) /\
  exists (h1 : heap) (g1 : WELL),
    set_state (world (zeros_but 3 1)) (mkWELL 1 0 32 Undefined)
              1%positive (Num 0)
    = (h1, g1, Ok tt) /\
    _state g1 ≠ 1%positive /\
    vector h1 g1 = zeros_but 3 1 /\
    vector (<[1%positive := zeros]> h1) g1 = vector h1 g1 /\
    (run (<[1%positive := zeros]> h1) g1 [Rand false]).2
    = (run h1 g1 [Rand false]).2.
Proof.
  assert (H : valid (world zeros) (mkWELL 1 0 32 Undefined))
    by (exists zeros; split; reflexivity).
  assert (H' : valid (world (zeros_but 3 1)) (mkWELL 1 0 32 Undefined))
    by (exists (zeros_but 3 1); split; reflexivity).
  split; [exact H|].
  split; [apply (copy_isolation (world zeros) (mkWELL 1 0 32 Undefined) H)|].
  split; [split; reflexivity|].
  destruct (copy_isolation (world (zeros_but 3 1)) (mkWELL 1 0 32 Undefined)
              H') as [_ Himp].
  destruct (Himp 1%positive (Num 0) (zeros_but 3 1) eq_refl eq_refl)
    as (h1 & g1 & E & Hne & Hv & _ & Hmut).
  exists h1, g1. split; [exact E|]. split; [exact Hne|].
  split; [exact Hv|]. exact (Hmut [] zeros [Rand false]).
Defined.

(** C3, evaluated where the code departs from it.  A generator built
    from the all-zero seed serves one [randBits(3)] and is then given
    reference vector 2 through [set_state]: the offset is still 3, not
    32, and the next [randBits(3)] is answered from the old cached word
    without any transition step (heap, vector and pointer stay put, the
    result is 0), whereas a refill from the new state yields 1. *)
Theorem set_state_keeps_stale_cache :
  match imported [RandBits 3] (zeros_but 3 1) 0 with
  | Some (h, g) =>
      vector h g = zeros_but 3 1 /\ _n g = 0 /\
      next_bit g = 3 /\ bit_state g = Num 0 /\
      randBits h g 3 = (h, mkWELL (_state g) (_n g) 6 (Num 0), 0) /\
      (rand h g true).2 = 129 /\ Z.land 129 (2 ^ 3 - 1) = 1
  | None => False
  end.
Proof. vm_compute. repeat split; reflexivity. Qed.

(** C4, evaluated where the code departs from it.  For the seed that is
    zero except for 66592767 at index 24, the first [rand(false)] of the
    constructed generator is 2^31 - 1, and [random(false)] multiplies it
    by [scale] to exactly 1, which is not below 1. *)
Theorem random_reaches_one :
  match constructed (zeros_but 24 66592767) with
  | Some (h, g) =>
      (rand h g false).2 = 2 ^ 31 - 1 /\
      (random h g false).2 = one /\
      SFltb (random h g false).2 one = false
  | None => False
  end.
Proof. vm_compute. repeat split; reflexivity. Qed.

(** C8, evaluated where the code departs from it.  Two generators are
    imported identically (reference vector 2, pointer 0); one of them had
    served a [randBits(3)] before.  The same call [randBits(3)] then
    returns 0 on that one and 1 on the other. *)
Theorem identical_import_different_output :
  match imported [RandBits 3] (zeros_but 3 1) 0,
        imported [] (zeros_but 3 1) 0 with
  | Some (h1, g1), Some (h2, g2) =>
      same_state h1 g1 h2 g2 /\
      (run h1 g1 [RandBits 3]).2 = [OInt 0] /\
      (run h2 g2 [RandBits 3]).2 = [OInt 1]
  | _, _ => False
  end.
Proof. vm_compute. repeat split; reflexivity. Qed.

(** * Further properties of rng.js *)

(** ** More on the 32-bit operators *)

Section Int32More.

(** The signed 32-bit range, seen through the bits above bit 30. *)
Lemma int32_shiftr (x : Z) :
  - 2 ^ 31 <= x < 2 ^ 31 <-> Z.shiftr x 31 = 0 \/ Z.shiftr x 31 = -1.
Proof.
  rewrite Z.shiftr_div_pow2 by lia.
  pose proof (Z.div_mod x (2 ^ 31)) as E.
  pose proof (Z.mod_pos_bound x (2 ^ 31)) as B.
  lia.
Qed.

Lemma lxor_int32 (x y : Z) :
  - 2 ^ 31 <= x < 2 ^ 31 -> - 2 ^ 31 <= y < 2 ^ 31 ->
  - 2 ^ 31 <= Z.lxor x y < 2 ^ 31.
Proof.
  rewrite !int32_shiftr, Z.shiftr_lxor.
  intros [-> | ->] [-> | ->]; vm_compute; auto.
Qed.

Lemma bxor_int32 (a b : Z) : - 2 ^ 31 <= JS.bxor a b < 2 ^ 31.
Proof. apply lxor_int32; apply ToInt32_range. Qed.

Lemma ToInt32_idem (z : Z) : JS.ToInt32 (JS.ToInt32 z) = JS.ToInt32 z.
Proof. apply ToInt32_small, ToInt32_range. Qed.

Lemma ToUint32_ToInt32 (z : Z) : JS.ToUint32 (JS.ToInt32 z) = JS.ToUint32 z.
Proof.
  destruct (ToInt32_shift z) as [q ->]. unfold JS.ToUint32.
  apply Z_mod_plus_full.
Qed.

Lemma bor_zero (x : Z) : JS.bor 0 x = JS.ToInt32 x.
Proof. unfold JS.bor. change (JS.ToInt32 0) with 0. apply Z.lor_0_l. Qed.

(** [(n + k) & 31] is [(n + k) mod 32], for every integer. *)
Lemma band_31_mod (z : Z) : JS.band z 31 = z mod 32.
Proof.
  unfold JS.band. replace (JS.ToInt32 31) with (Z.ones 5) by reflexivity.
  rewrite land_mask_ToInt32 by lia. apply Z.land_ones. lia.
Qed.

(** Any value ANDed with the mask of [randBits] is in [0, 2^bits - 1]. *)
Lemma band_mask_range (x bits : Z) :
  1 <= bits <= 31 -> 0 <= JS.band x (JS.shl 1 bits - 1) <= 2 ^ bits - 1.
Proof.
  intros Hb. unfold JS.band. rewrite mask_ones by lia.
  rewrite Z.land_ones by lia.
  assert (0 < 2 ^ bits) by (apply Z.pow_pos_nonneg; lia).
  pose proof (Z.mod_pos_bound (JS.ToInt32 x) (2 ^ bits)). lia.
Qed.

End Int32More.

(** ** More on array reads and writes *)

Section ArraysMore.

(** A write is seen by no read at another index, also when the array
    grows: the skipped slots are holes. *)
Lemma get_set_other (a : list value) (i j : Z) (v : value) :
  i ≠ j -> JS.get (JS.set a j v) i = JS.get a i.
Proof.
  intros Hij. unfold JS.get, JS.set.
  destruct (decide (0 <= i)) as [Hi|]; [|reflexivity].
  destruct (decide (j < 0 \/ 2 ^ 32 - 1 <= j)); [reflexivity|].
  destruct (decide (j < Z.of_nat (length a))).
  - rewrite list_lookup_insert_ne by lia. reflexivity.
  - destruct (decide (Z.to_nat i < length a)%nat) as [Hlt|Hge].
    + rewrite lookup_app_l by exact Hlt. reflexivity.
    + rewrite (lookup_ge_None_2 a) by lia.
      rewrite lookup_app_r by lia.
      destruct (decide (Z.to_nat i - length a < Z.to_nat j - length a)%nat).
      * rewrite lookup_app_l by (rewrite length_replicate; lia).
        rewrite lookup_replicate_2 by lia. reflexivity.
      * rewrite lookup_app_r by (rewrite length_replicate; lia).
        rewrite length_replicate.
        destruct (Z.to_nat i - length a - (Z.to_nat j - length a))%nat
          as [|k] eqn:Hk; [lia|].
        reflexivity.
Qed.

Lemma set_outside (a : list value) (i : Z) (v : value) :
  i < 0 -> JS.set a i v = a.
Proof.
  intros Hi. unfold JS.set.
  destruct (decide (i < 0 \/ 2 ^ 32 - 1 <= i)); [reflexivity|lia].
Qed.

Lemma get_congruent (a b : list value) (i : Z) :
  Forall2 congruent a b -> congruent (JS.get a i) (JS.get b i).
Proof.
  intros Hab. unfold JS.get. destruct (decide (0 <= i)); [|reflexivity].
  destruct (a !! Z.to_nat i) as [x|] eqn:Ha.
  - destruct (Forall2_lookup_l _ _ _ _ _ Hab Ha) as (y & -> & Hxy). exact Hxy.
  - apply lookup_ge_None in Ha. rewrite (Forall2_length _ _ _ Hab) in Ha.
    apply lookup_ge_None in Ha. rewrite Ha. reflexivity.
Qed.

Lemma set_congruent (a b : list value) (i : Z) (v : value) :
  Forall2 congruent a b -> Forall2 congruent (JS.set a i v) (JS.set b i v).
Proof.
  intros Hab. unfold JS.set. rewrite <- (Forall2_length _ _ _ Hab).
  destruct (decide (i < 0 \/ 2 ^ 32 - 1 <= i)); [exact Hab|].
  destruct (decide (i < Z.of_nat (length a))).
  - apply Forall2_insert; [exact Hab|reflexivity].
  - apply Forall2_app; [exact Hab|].
    apply Forall2_app; [|repeat constructor].
    apply Forall2_replicate. reflexivity.
Qed.

Lemma set_int32 (a : list value) (i : Z) (z : Z) :
  - 2 ^ 31 <= z < 2 ^ 31 -> 0 <= i < Z.of_nat (length a) ->
  Forall int32_word a -> Forall int32_word (JS.set a i (Num z)).
Proof.
  intros Hz Hi Ha. unfold JS.set.
  destruct (decide (i < 0 \/ 2 ^ 32 - 1 <= i)); [exact Ha|].
  destruct (decide (i < Z.of_nat (length a))); [|lia].
  apply Forall_insert; [exact Ha|]. exists z. auto.
Qed.

End ArraysMore.

(** ** More on the transition step and the methods *)

Section StepMore.

Lemma rand_core_word_int32 (s : list value) (n : Z) :
  - 2 ^ 31 <= (rand_core s n).2 < 2 ^ 31.
Proof. unfold rand_core. cbn [snd]. apply bxor_int32. Qed.

Lemma rand_vector (h : heap) (g : WELL) (incNeg : bool) :
  vector (rand h g incNeg).1.1 (rand h g incNeg).1.2
  = (rand_core (vector h g) (_n g)).1.1.
Proof.
  rewrite rand_unfold. cbn [fst snd]. apply vector_insert. reflexivity.
Qed.

Lemma rand_pointer (h : heap) (g : WELL) (incNeg : bool) :
  _n (rand h g incNeg).1.2 = JS.add (_n g) 31 mod 32.
Proof.
  rewrite rand_unfold. cbn [fst snd _n]. unfold rand_core. cbn [fst snd].
  apply band_31_mod.
Qed.

Lemma rand_pointer_exact (h : heap) (g : WELL) (incNeg : bool) :
  - 2 ^ 53 < _n g + 31 < 2 ^ 53 ->
  _n (rand h g incNeg).1.2 = (_n g + 31) mod 32.
Proof. intros Hn. rewrite rand_pointer, add_small by exact Hn. reflexivity. Qed.

Lemma rand_result (h : heap) (g : WELL) (incNeg : bool) :
  (rand h g incNeg).2 =
  if incNeg then (rand_core (vector h g) (_n g)).2
  else (rand_core (vector h g) (_n g)).2 mod 2 ^ 31.
Proof.
  rewrite rand_unfold. cbn [snd]. destruct incNeg; [reflexivity|].
  apply band_positive_mask.
Qed.

Lemma rand_state_any (h : heap) (g : WELL) (b1 b2 : bool) :
  (rand h g b1).1 = (rand h g b2).1.
Proof. rewrite !rand_unfold. reflexivity. Qed.

(** A call that bypasses the bit cache moves the generator as one [rand]
    does. *)
Lemma exec_cache_free (h : heap) (g : WELL) (c : call) :
  cache_free c = true -> (exec h g c).1 = (rand h g false).1.
Proof.
  destruct c as [b|b|a b|bits]; cbn [exec cache_free]; intros Hc;
    try discriminate Hc.
  - rewrite (rand_state_any h g false b).
    destruct (rand h g b) as [[h' g'] r]. reflexivity.
  - rewrite (rand_state_any h g false b), random_unfold.
    destruct (rand h g b) as [[h' g'] r]. reflexivity.
  - rewrite randInt_unfold.
    destruct (rand h g false) as [[h' g'] r]. cbn [fst snd].
    destruct (JS.rem r (JS.sub (JS.add 1 b) a)); reflexivity.
Qed.

Lemma rand_core_zeros (n : Z) :
  0 <= n < 32 ->
  (rand_core zeros n).1.1 = zeros /\ (rand_core zeros n).2 = 0.
Proof.
  intros Hn. destruct (small_cases n Hn) as (k & -> & Hk).
  do 32 (destruct k as [|k]; [vm_compute; split; reflexivity|]). lia.
Qed.

End StepMore.

(** X1. [rand(true)] returns a number of the signed 32-bit range whatever
    the state array holds; [rand(false)] moves the generator in exactly
    the same way and returns the same word with its sign bit cleared,
    which lies in [0, 2^31 - 1]. *)
Theorem rand_ranges (h : heap) (g : WELL) :
  - 2 ^ 31 <= (rand h g true).2 <= 2 ^ 31 - 1 /\
  0 <= (rand h g false).2 <= 2 ^ 31 - 1 /\
  (rand h g false).1 = (rand h g true).1 /\
  (rand h g false).2 = (rand h g true).2 mod 2 ^ 31.
Proof.
  rewrite !rand_result.
  pose proof (rand_core_word_int32 (vector h g) (_n g)) as Hw.
  pose proof (Z.mod_pos_bound (rand_core (vector h g) (_n g)).2 (2 ^ 31)).
  split; [lia|]. split; [lia|]. split; [apply rand_state_any|reflexivity].
Qed.

(** X2. Each call of [rand], [random] or [randInt] moves the pointer one
    place down, circularly: from a pointer in [0, 32), after k such calls
    it is (pointer - k) mod 32, so 32 calls bring it back. *)
Theorem pointer_steps_back (cs : list call) (h : heap) (g : WELL) :
  forallb cache_free cs = true -> 0 <= _n g < 32 ->
  _n (run h g cs).1.2 = (_n g - Z.of_nat (length cs)) mod 32.
Proof.
  revert h g. induction cs as [|c cs IH]; intros h g Hc Hn.
  - cbn. rewrite Z.sub_0_r, Z.mod_small; lia.
  - cbn [forallb] in Hc. apply andb_prop in Hc as [Hc Hcs].
    rewrite run_cons. cbn [fst snd].
    assert (E : _n (exec h g c).1.2 = (_n g + 31) mod 32).
    { rewrite (exec_cache_free h g c Hc). apply rand_pointer_exact. lia. }
    rewrite IH; [|exact Hcs|rewrite E; apply Z.mod_pos_bound; lia].
    rewrite E. cbn [length]. rewrite Zminus_mod_idemp_l.
    replace (_n g + 31 - Z.of_nat (length cs))
      with (_n g - Z.of_nat (S (length cs)) + 1 * 32) by lia.
    apply Z_mod_plus_full.
Qed.

Lemma pointer_steps_back_witness :
  (forallb cache_free [Rand true; RandInt 2 12; Random false] = true /\
   0 <= _n (mkWELL 1 1 32 Undefined) < 32) /\
  _n (run (world zeros) (mkWELL 1 1 32 Undefined)
          [Rand true; RandInt 2 12; Random false]).1.2
  = (1 - 3) mod 32.
Proof.
  split; [split; [reflexivity | cbn; lia]|].
  apply (pointer_steps_back [Rand true; RandInt 2 12; Random false]
           (world zeros) (mkWELL 1 1 32 Undefined));
    [reflexivity | cbn; lia].
Defined.

(** X3. One transition step writes at most two slots of the state array,
    the one at the old pointer and the one at the new pointer; every
    other index reads as before.  The slot at the new pointer holds the
    word that [rand(true)] returns.  For a pointer p with
    -2^53 < p + 31 < 2^53 the new pointer is (p + 31) mod 32. *)
Theorem step_footprint (h : heap) (g : WELL) (incNeg : bool) :
  (forall i : Z,
     i ≠ _n g -> i ≠ _n (rand h g incNeg).1.2 ->
     JS.get (vector (rand h g incNeg).1.1 (rand h g incNeg).1.2) i
     = JS.get (vector h g) i) /\
  JS.get (vector (rand h g incNeg).1.1 (rand h g incNeg).1.2)
         (_n (rand h g incNeg).1.2)
  = Num (rand h g true).2 /\
  (- 2 ^ 53 < _n g + 31 < 2 ^ 53 ->
   _n (rand h g incNeg).1.2 = (_n g + 31) mod 32).
Proof.
  split; [|split; [|apply rand_pointer_exact]].
  - rewrite rand_vector, rand_pointer.
    intros i Hi Hi'. unfold rand_core. cbn [fst snd].
    rewrite get_set_other by (rewrite band_31_mod; exact Hi').
    apply get_set_other. exact Hi.
  - rewrite rand_vector, rand_pointer, (rand_result h g true).
    pose proof (rand_core_readback (vector h g) (_n g)) as R.
    pose proof (band_31_mod (JS.add (_n g) 31)) as E.
    unfold rand_core in *. cbn [fst snd] in *. rewrite <- E. exact R.
Qed.

(** X4. The all-zero vector is absorbing.  From a 32-entry vector of
    zeros and a pointer in [0, 32), any sequence of [rand], [random] and
    [randInt] calls, the latter with arguments strictly between -2^52
    and 2^52, leaves the vector all zero; every [rand] returns 0, every
    [random] returns +0 and every [randInt(a, b)] returns [a] (NaN when
    1 + b - a is 0). *)
Theorem zero_state_absorbing (cs : list call) (h : heap) (g : WELL) :
  forallb cache_free cs = true -> Forall exact_call cs ->
  vector h g = zeros -> 0 <= _n g < 32 ->
  (run h g cs).2 = map zero_output cs /\
  vector (run h g cs).1.1 (run h g cs).1.2 = zeros.
Proof.
  revert h g. induction cs as [|c cs IH]; intros h g Hc Hx Hv Hn.
  - cbn. auto.
  - cbn [forallb] in Hc. apply andb_prop in Hc as [Hc Hcs].
    apply Forall_cons in Hx as [Hx Hxs].
    rewrite run_cons. cbn [fst snd map].
    destruct (rand_core_zeros (_n g) Hn) as [Ez Ew].
    assert (Er : forall b, (rand h g b).2 = 0).
    { intros b. rewrite rand_result, Hv, Ew. destruct b; reflexivity. }
    assert (Ev : vector (exec h g c).1.1 (exec h g c).1.2 = zeros).
    { rewrite (exec_cache_free h g c Hc), rand_vector, Hv. exact Ez. }
    assert (En : 0 <= _n (exec h g c).1.2 < 32).
    { rewrite (exec_cache_free h g c Hc), rand_pointer.
      apply Z.mod_pos_bound. lia. }
    destruct (IH _ _ Hcs Hxs Ev En) as [IHo IHv].
    split; [|exact IHv]. rewrite IHo. f_equal.
    destruct c as [b|b|a b|bits]; cbn [exec zero_output];
      try discriminate Hc.
    + specialize (Er b). destruct (rand h g b) as [[h' g'] r].
      cbn [snd] in *. subst r. reflexivity.
    + rewrite random_unfold. cbn [snd]. rewrite Er. reflexivity.
    + pose proof (randInt_exact h g a b Hx) as E. rewrite Er in E.
      destruct Hx as [Ha Hb].
      destruct (randInt h g a b) as [[h' g'] r]. cbn [snd] in *. subst r.
      unfold JS.rem. destruct (decide (1 + b - a = 0)); [reflexivity|].
      cbn [mbind option_bind]. rewrite Z.rem_0_l by assumption. reflexivity.
Qed.

Lemma zero_state_absorbing_witness :
  (forallb cache_free [Rand false; Random true; RandInt 3 9] = true /\
   Forall exact_call [Rand false; Random true; RandInt 3 9] /\
   vector (world zeros) (mkWELL 1 5 32 Undefined) = zeros /\
   0 <= _n (mkWELL 1 5 32 Undefined) < 32) /\
  (run (world zeros) (mkWELL 1 5 32 Undefined)
       [Rand false; Random true; RandInt 3 9]).2
  = [OInt 0; OFloat (S754_zero false); OInt 3].
Proof.
  assert (Hx : Forall exact_call [Rand false; Random true; RandInt 3 9])
    by (repeat constructor; cbn; lia).
  split; [split; [reflexivity | split; [exact Hx | split;
                 [reflexivity | cbn; lia]]]|].
  apply (zero_state_absorbing [Rand false; Random true; RandInt 3 9]
           (world zeros) (mkWELL 1 5 32 Undefined));
    [reflexivity | exact Hx | reflexivity | cbn; lia].
Defined.

(** ** The state store, continued *)

Section StoreMore.

Lemma or_zero_num (p : Z) : JS.or_zero (Num p) = p.
Proof. unfold JS.or_zero. destruct (decide (p = 0)); congruence. Qed.

Lemma set_state_success (h : heap) (g : WELL) (src : ref) (sp : value) :
  length (h !!! src) = 32%nat ->
  set_state h g src sp =
  (<[fresh (dom h) := h !!! src]> h,
   mkWELL (fresh (dom h)) (JS.or_zero sp) (next_bit g) (bit_state g),
   Ok tt).
Proof.
  intros Hlen. unfold set_state, set_state_fields, slice0, alloc.
  destruct (decide (length (h !!! src) ≠ 32%nat)); [contradiction|].
  reflexivity.
Qed.

Lemma set_state_failure (h : heap) (g : WELL) (src : ref) (sp : value) :
  length (h !!! src) ≠ 32%nat ->
  set_state h g src sp = (h, g, Throw TypeError).
Proof.
  intros Hlen. unfold set_state, set_state_fields.
  destruct (decide (length (h !!! src) ≠ 32%nat)); [reflexivity|].
  contradiction.
Qed.

Lemma construct_seed (rnd : nat -> Z) (h : heap) (src : ref) :
  length (h !!! src) = 32%nat ->
  construct rnd h (Some src) =
  (<[fresh (dom h) := h !!! src]> h,
   Ok (mkWELL (fresh (dom h)) 0 32 Undefined)).
Proof.
  intros Hlen. unfold construct, set_state_fields, slice0, alloc.
  destruct (decide (length (h !!! src) ≠ 32%nat)); [contradiction|].
  reflexivity.
Qed.

Lemma fresh_not_bound (h : heap) (r : ref) (a : list value) :
  h !! r = Some a -> fresh (dom h) ≠ r.
Proof.
  intros Hr E. apply (is_fresh (dom h)). rewrite E.
  apply elem_of_dom. eauto.
Qed.

Lemma genstate_words (rnd : nat -> Z) :
  length (map (fun i => Num (JS.bor 0 (rnd i))) (seq 0 32)) = 32%nat /\
  Forall int32_word (map (fun i => Num (JS.bor 0 (rnd i))) (seq 0 32)).
Proof.
  split; [rewrite length_map; apply length_seq|].
  apply Forall_forall. intros v Hv. apply list_elem_of_In in Hv.
  apply in_map_iff in Hv as (i & <- & _).
  eexists. split; [reflexivity|]. rewrite bor_zero. apply ToInt32_range.
Qed.

End StoreMore.

(** X5. A pointer outside [0, 32) is only reduced where it is read.  For
    a pointer p outside [0, 32) with -2^53 < p < 2^53 - 31 (so that the
    index sums are exact), the first [rand] returns the same word and
    ends at the same new pointer as with the pointer reduced modulo 32,
    but its first write does not reach slot (p mod 32), which keeps its
    old contents: with 32 <= p < 2^32 - 1 the array grows to p + 1
    entries, with a negative p it keeps its 32 entries. *)
Theorem pointer_out_of_range (h : heap) (g : WELL) (incNeg : bool) :
  length (vector h g) = 32%nat -> ¬ (0 <= _n g < 32) ->
  - 2 ^ 53 < _n g < 2 ^ 53 - 31 ->
  (rand h g incNeg).2
  = (rand h (mkWELL (_state g) (_n g mod 32) (next_bit g) (bit_state g))
          incNeg).2 /\
  _n (rand h g incNeg).1.2 = (_n g mod 32 + 31) mod 32 /\
  JS.get (vector (rand h g incNeg).1.1 (rand h g incNeg).1.2) (_n g mod 32)
  = JS.get (vector h g) (_n g mod 32) /\
  (32 <= _n g < 2 ^ 32 - 1 ->
   Z.of_nat (length (vector (rand h g incNeg).1.1 (rand h g incNeg).1.2))
   = _n g + 1) /\
  (_n g < 0 ->
   length (vector (rand h g incNeg).1.1 (rand h g incNeg).1.2) = 32%nat).
Proof.
  intros Hlen Hout Hex.
  pose proof (Z.mod_pos_bound (_n g) 32) as Hm.
  pose proof (band_31_range (JS.add (_n g) 31)) as Hm'.
  assert (Eidx : forall k, (_n g mod 32 + k) mod 32 = (_n g + k) mod 32)
    by (intros k; apply Zplus_mod_idemp_l).
  split; [|split; [|split; [|split]]].
  - rewrite !rand_result. unfold vector. cbn [_state _n].
    assert (E : (rand_core (h !!! _state g) (_n g)).2
                = (rand_core (h !!! _state g) (_n g mod 32)).2).
    { unfold rand_core. cbn [snd]. rewrite !band_31_mod.
      rewrite !add_small by lia. rewrite !Eidx. reflexivity. }
    rewrite E. reflexivity.
  - rewrite rand_pointer_exact by lia. rewrite Eidx. reflexivity.
  - rewrite rand_vector. unfold rand_core. cbn [fst snd].
    rewrite get_set_other.
    + apply get_set_other. lia.
    + rewrite band_31_mod, add_small by lia.
      pose proof (Z.div_mod (_n g) 32).
      pose proof (Z.div_mod (_n g + 31) 32).
      pose proof (Z.mod_pos_bound (_n g + 31) 32). lia.
  - intros Hbig. rewrite rand_vector. unfold rand_core. cbn [fst snd].
    rewrite set_length_inside; rewrite set_length_beyond; lia.
  - intros Hneg. rewrite rand_vector. unfold rand_core. cbn [fst snd].
    rewrite (set_outside _ (_n g)) by exact Hneg.
    rewrite set_length_inside; lia.
Qed.

Lemma pointer_out_of_range_witness :
  (length (vector (world zeros) (mkWELL 1 40 32 Undefined)) = 32%nat /\
   ¬ (0 <= _n (mkWELL 1 40 32 Undefined) < 32) /\
   - 2 ^ 53 < _n (mkWELL 1 40 32 Undefined) < 2 ^ 53 - 31) /\
  _n (rand (world zeros) (mkWELL 1 40 32 Undefined) true).1.2
  = (40 mod 32 + 31) mod 32.
Proof.
  split; [split; [reflexivity | cbn; lia]|].
  apply (pointer_out_of_range (world zeros) (mkWELL 1 40 32 Undefined) true);
    [reflexivity | cbn; lia | cbn; lia].
Defined.

(** X6. After [set_state] with a pointer p, 32 <= p < 2^32 - 1, and one
    transition step, the vector that [get_state] exports has p + 1
    entries, and every generator rejects it: [set_state] throws and so
    does the constructor. *)
Theorem grown_state_not_importable
  (rnd : nat -> Z) (h : heap) (g g' : WELL) (incNeg : bool) (sp : value) :
  valid h g -> 32 <= _n g < 2 ^ 32 - 1 ->
  let h1 := (rand h g incNeg).1.1 in
  let g1 := (rand h g incNeg).1.2 in
  let h2 := (get_state h1 g1).1 in
  let r := (get_state h1 g1).2 in
  Z.of_nat (length (h2 !!! r)) = _n g + 1 /\
  set_state h2 g' r sp = (h2, g', Throw TypeError) /\
  construct rnd h2 (Some r) = (h2, Throw TypeError).
Proof.
  intros (s & Hs & Hlen) Hp h1 g1 h2 r.
  assert (Hv : vector h g = s) by (apply vector_lookup, Hs).
  assert (Hl : Z.of_nat (length (h2 !!! r)) = _n g + 1).
  { subst h2 r. unfold get_state, slice0, alloc. cbn [fst snd].
    rewrite lookup_total_insert_eq. fold (vector h1 g1). subst h1 g1.
    rewrite rand_vector. unfold rand_core. cbn [fst snd].
    pose proof (band_31_range (JS.add (_n g) 31)).
    rewrite Hv.
    rewrite set_length_inside; rewrite set_length_beyond; lia. }
  assert (Hne : length (h2 !!! r) ≠ 32%nat) by lia.
  split; [exact Hl|]. split; [apply set_state_failure, Hne|].
  unfold construct, set_state_fields.
  destruct (decide (length (h2 !!! r) ≠ 32%nat)); [reflexivity|contradiction].
Qed.

Lemma grown_state_not_importable_witness :
  (valid (world zeros) (mkWELL 1 40 32 Undefined) /\
   32 <= _n (mkWELL 1 40 32 Undefined) < 2 ^ 32 - 1) /\
  Z.of_nat
    (length
       ((get_state (rand (world zeros) (mkWELL 1 40 32 Undefined) true).1.1
                   (rand (world zeros) (mkWELL 1 40 32 Undefined) true).1.2).1
        !!! (get_state
               (rand (world zeros) (mkWELL 1 40 32 Undefined) true).1.1
               (rand (world zeros) (mkWELL 1 40 32 Undefined) true).1.2).2))
  = _n (mkWELL 1 40 32 Undefined) + 1.
Proof.
  assert (H : valid (world zeros) (mkWELL 1 40 32 Undefined))
    by (exists zeros; split; reflexivity).
  assert (Hp : 32 <= _n (mkWELL 1 40 32 Undefined) < 2 ^ 32 - 1)
    by (cbn; lia).
  split; [split; assumption|].
  apply (grown_state_not_importable (fun _ => 0) (world zeros)
           (mkWELL 1 40 32 Undefined) (mkWELL 1 0 32 Undefined) true
           (Num 0) H Hp).
Defined.

(** X7. Snapshot and replay.  Export the vector with [get_state] and note
    the pointer; whatever calls are made afterwards, [set_state] with the
    exported array and the noted pointer succeeds and brings vector and
    pointer back, so that any sequence of [rand], [random] and [randInt]
    calls then repeats the outputs it would have given at the time of
    the snapshot. *)
Theorem snapshot_replay (h : heap) (g : WELL) (cs1 cs : list call) :
  valid h g -> forallb cache_free cs = true ->
  let h1 := (get_state h g).1 in
  let r := (get_state h g).2 in
  let h2 := (run h1 g cs1).1.1 in
  let g2 := (run h1 g cs1).1.2 in
  exists h3 g3,
    set_state h2 g2 r (Num (_n g)) = (h3, g3, Ok tt) /\
    vector h3 g3 = vector h g /\ _n g3 = _n g /\
    (run h3 g3 cs).2 = (run h g cs).2.
Proof.
  intros (s & Hs & Hlen) Hcs h1 r h2 g2.
  assert (Hv : vector h g = s) by (apply vector_lookup, Hs).
  assert (Hne : r ≠ _state g).
  { subst r. unfold get_state, slice0, alloc. cbn [snd].
    apply (fresh_not_bound h _ s Hs). }
  assert (Hr : h2 !!! r = s).
  { apply lookup_total_correct. subst h2.
    rewrite (proj2 (run_frame cs1 h1 g) r Hne).
    subst h1 r. unfold get_state, slice0, alloc. cbn [fst snd].
    rewrite lookup_insert_eq. fold (vector h g). congruence. }
  eexists _, _. split.
  - apply set_state_success. rewrite Hr. exact Hlen.
  - assert (Ev : vector (<[fresh (dom h2) := h2 !!! r]> h2)
                   (mkWELL (fresh (dom h2)) (JS.or_zero (Num (_n g)))
                           (next_bit g2) (bit_state g2)) = vector h g).
    { unfold vector at 1. cbn [_state].
      rewrite lookup_total_insert_eq. congruence. }
    split; [exact Ev|]. cbn [_n]. split; [apply or_zero_num|].
    apply run_same_state; [exact Hcs|]. split; [exact Ev|].
    cbn [_n]. apply or_zero_num.
Qed.

Lemma snapshot_replay_witness :
  (valid (world (zeros_but 3 1)) (mkWELL 1 0 32 Undefined) /\
   forallb cache_free [Rand false] = true) /\
  exists h3 g3,
    set_state
      (run (get_state (world (zeros_but 3 1)) (mkWELL 1 0 32 Undefined)).1
           (mkWELL 1 0 32 Undefined) [RandBits 3; Rand true]).1.1
      (run (get_state (world (zeros_but 3 1)) (mkWELL 1 0 32 Undefined)).1
           (mkWELL 1 0 32 Undefined) [RandBits 3; Rand true]).1.2
      (get_state (world (zeros_but 3 1)) (mkWELL 1 0 32 Undefined)).2
      (Num (_n (mkWELL 1 0 32 Undefined)))
    = (h3, g3, Ok tt) /\
    vector h3 g3 = vector (world (zeros_but 3 1)) (mkWELL 1 0 32 Undefined) /\
    _n g3 = _n (mkWELL 1 0 32 Undefined) /\
    (run h3 g3 [Rand false]).2
    = (run (world (zeros_but 3 1)) (mkWELL 1 0 32 Undefined) [Rand false]).2.
Proof.
  assert (H : valid (world (zeros_but 3 1)) (mkWELL 1 0 32 Undefined))
    by (exists (zeros_but 3 1); split; reflexivity).
  split; [split; [exact H | reflexivity]|].
  apply (snapshot_replay (world (zeros_but 3 1)) (mkWELL 1 0 32 Undefined)
           [RandBits 3; Rand true] [Rand false] H).
  reflexivity.
Defined.

(** X8. [new WELL(seed)] with a 32-entry seed succeeds.  The generator
    owns a new array with the seed's contents (not the caller's array,
    which is left as it was), its pointer is 0, its bit cache is empty
    (offset 32, no cached word), and no other array changes. *)
Theorem construct_from_seed
  (rnd : nat -> Z) (h : heap) (src : ref) (s : list value) :
  h !! src = Some s -> length s = 32%nat ->
  exists h' g,
    construct rnd h (Some src) = (h', Ok g) /\
    vector h' g = s /\ _state g ≠ src /\
    _n g = 0 /\ next_bit g = 32 /\ bit_state g = Undefined /\
    inv h' g /\
    forall r, r ∈ dom h -> h' !! r = h !! r.
Proof.
  intros Hsrc Hlen.
  assert (Et : h !!! src = s) by (apply lookup_total_correct, Hsrc).
  eexists _, _. split; [apply construct_seed; congruence|].
  cbn [_state _n next_bit bit_state]. rewrite Et.
  assert (Hv : vector (<[fresh (dom h) := s]> h)
                 (mkWELL (fresh (dom h)) 0 32 Undefined) = s).
  { unfold vector. cbn [_state]. apply lookup_total_insert_eq. }
  split; [exact Hv|]. split; [apply (fresh_not_bound h src s Hsrc)|].
  do 3 (split; [reflexivity|]). split.
  - split; [|cbn; lia]. exists s. cbn [_state].
    rewrite lookup_insert_eq. auto.
  - intros r Hr. apply lookup_insert_ne. intros E.
    apply (is_fresh (dom h)). rewrite E. exact Hr.
Qed.

Lemma construct_from_seed_witness :
  (world zeros !! 1%positive = Some zeros /\ length zeros = 32%nat) /\
  exists h' g,
    construct (fun _ => 0) (world zeros) (Some 1%positive) = (h', Ok g) /\
    vector h' g = zeros /\ _state g ≠ 1%positive /\
    _n g = 0 /\ next_bit g = 32 /\ bit_state g = Undefined /\
    inv h' g /\
    forall r, r ∈ dom (world zeros) -> h' !! r = world zeros !! r.
Proof.
  split; [split; reflexivity|].
  apply (construct_from_seed (fun _ => 0) (world zeros) 1%positive zeros);
    reflexivity.
Defined.

(** X9. [new WELL()] without a seed never throws, whatever the host's
    random source delivers: genstate yields 32 numbers of the signed
    32-bit range, the generator starts at pointer 0 with an empty bit
    cache, and the arrays that existed before are not touched. *)
Theorem construct_without_seed (rnd : nat -> Z) (h : heap) :
  exists h' g,
    construct rnd h None = (h', Ok g) /\
    inv h' g /\ Forall int32_word (vector h' g) /\
    _n g = 0 /\ next_bit g = 32 /\ bit_state g = Undefined /\
    forall r, r ∈ dom h -> h' !! r = h !! r.
Proof.
  destruct (genstate_words rnd) as [Hlen Hw].
  set (L := map (fun i => Num (JS.bor 0 (rnd i))) (seq 0 32)) in *.
  set (h0 := <[fresh (dom h) := L]> h).
  assert (E0 : h0 !!! fresh (dom h) = L) by apply lookup_total_insert_eq.
  assert (Ec : construct rnd h None
               = (<[fresh (dom h0) := L]> h0,
                  Ok (mkWELL (fresh (dom h0)) 0 32 Undefined))).
  { unfold construct, genstate, alloc. fold L. fold h0.
    unfold set_state_fields, slice0, alloc. rewrite E0.
    destruct (decide (length L ≠ 32%nat)); [contradiction|]. reflexivity. }
  eexists _, _. split; [exact Ec|].
  assert (Hv : vector (<[fresh (dom h0) := L]> h0)
                 (mkWELL (fresh (dom h0)) 0 32 Undefined) = L).
  { unfold vector. cbn [_state]. apply lookup_total_insert_eq. }
  split; [|split; [rewrite Hv; exact Hw|]].
  - split; [|cbn; lia]. exists L. cbn [_state].
    rewrite lookup_insert_eq. auto.
  - do 3 (split; [reflexivity|]). intros r Hr.
    assert (Hr0 : r ∈ dom h0).
    { unfold h0. rewrite dom_insert_L. apply elem_of_union_r, Hr. }
    rewrite lookup_insert_ne.
    + unfold h0. apply lookup_insert_ne. intros E.
      apply (is_fresh (dom h)). rewrite E. exact Hr.
    + intros E. apply (is_fresh (dom h0)). rewrite E. exact Hr0.
Qed.

(** X10. The filling loop of genstate assigns every one of the 32 slots
    of [new Array(32)] exactly once, leaving no hole, and the same loop
    in bench.js, started from the empty array, builds the same 32
    entries by growing the array one slot at a time; the constructor
    accepts that array. *)
Theorem genstate_loop_fills (rnd : nat -> Z) :
  genstate_loop rnd = map (fun i => Num (JS.bor 0 (rnd i))) (seq 0 32) /\
  bench_state rnd = genstate_loop rnd /\
  exists h g, bench_generator rnd = (h, Ok g) /\
              vector h g = genstate_loop rnd /\ inv h g.
Proof.
  assert (E1 : genstate_loop rnd
               = map (fun i => Num (JS.bor 0 (rnd i))) (seq 0 32))
    by reflexivity.
  assert (E2 : bench_state rnd = genstate_loop rnd) by reflexivity.
  split; [exact E1|]. split; [exact E2|].
  destruct (genstate_words rnd) as [Hlen _]. rewrite <- E1, <- E2 in Hlen.
  unfold bench_generator, alloc.
  set (r := fresh (dom (∅ : heap))).
  set (h0 := <[r := bench_state rnd]> (∅ : heap)).
  assert (E0 : h0 !!! r = bench_state rnd) by apply lookup_total_insert_eq.
  eexists _, _. split; [apply construct_seed; rewrite E0; exact Hlen|].
  rewrite E0.
  assert (Hv : vector (<[fresh (dom h0) := bench_state rnd]> h0)
                 (mkWELL (fresh (dom h0)) 0 32 Undefined) = bench_state rnd).
  { unfold vector. cbn [_state]. apply lookup_total_insert_eq. }
  split; [congruence|]. split; [|cbn; lia].
  exists (bench_state rnd). cbn [_state]. rewrite lookup_insert_eq. auto.
Qed.

(** ** randInt and randBits at the edges of their arguments *)

Section Edges.

(** The mask of [randBits] for any integer argument: the shift count is
    taken modulo 32. *)
Lemma mask_ones_mod (bits : Z) :
  JS.ToInt32 (JS.shl 1 bits - 1) = Z.ones (bits mod 32).
Proof.
  unfold JS.shl. change 31 with (Z.ones 5). rewrite Z.land_ones by lia.
  change (2 ^ 5) with 32.
  pose proof (Z.mod_pos_bound bits 32) as Hk.
  destruct (small_cases (bits mod 32)) as (n & -> & Hn); [lia|].
  do 32 (destruct n as [|n]; [vm_compute; reflexivity|]). lia.
Qed.

Lemma randBits_result_mod (h : heap) (g : WELL) (bits : Z) :
  exists x, (randBits h g bits).2 = x mod 2 ^ (bits mod 32).
Proof.
  pose proof (Z.mod_pos_bound bits 32) as Hk.
  rewrite randBits_unfold.
  destruct (decide (bits + next_bit g <= 32)); cbn [snd]; unfold JS.band;
    rewrite mask_ones_mod, Z.land_ones by lia; eauto.
Qed.

End Edges.

(** X11. [randInt(a, b)] with b < a, both strictly between -2^52 and
    2^52.  When a = b + 1 the distance is 0 and the result is NaN; when
    a > b + 1 the result lies in [a, 2a - b - 2], that is at or above
    the larger argument.  In both cases the generator advances as for
    [rand(false)]. *)
Theorem randInt_reversed (h : heap) (g : WELL) (a b : Z) :
  b < a -> - 2 ^ 52 < b -> a < 2 ^ 52 ->
  (randInt h g a b).1 = (rand h g false).1 /\
  (a = b + 1 -> (randInt h g a b).2 = None) /\
  (b + 1 < a ->
   exists z, (randInt h g a b).2 = Some z /\ a <= z <= 2 * a - b - 2).
Proof.
  intros Hba Hb Ha. pose proof (rand_false_range h g) as Hr.
  split; [apply randInt_state|].
  rewrite randInt_exact by (unfold exact_args; lia).
  generalize dependent ((rand h g false).2). intros r Hr. split.
  - intros ->. unfold JS.rem.
    destruct (decide (1 + b - (b + 1) = 0)); [reflexivity|lia].
  - intros Hlt. unfold JS.rem.
    destruct (decide (1 + b - a = 0)); [lia|].
    exists (Z.rem r (1 + b - a) + a). split; [reflexivity|].
    replace (1 + b - a) with (- (a - b - 1)) by lia.
    rewrite Z.rem_opp_r by lia.
    rewrite Z.rem_mod_nonneg by lia.
    pose proof (Z.mod_pos_bound r (a - b - 1)). lia.
Qed.

Lemma randInt_reversed_witness :
  (0 < 10 /\ - 2 ^ 52 < 0 /\ 10 < 2 ^ 52) /\
  exists z,
    (randInt (world zeros) (mkWELL 1 0 32 Undefined) 10 0).2 = Some z /\
    10 <= z <= 2 * 10 - 0 - 2.
Proof.
  split; [lia|].
  apply (randInt_reversed (world zeros) (mkWELL 1 0 32 Undefined) 10 0); lia.
Defined.

(** X12. [randBits] takes its width modulo 32: for every integer [bits]
    the result lies in [0, 2^(bits mod 32) - 1].  In particular
    [randBits(0)] and [randBits(32)] always return 0. *)
Theorem randBits_width_mod_32 (h : heap) (g : WELL) (bits : Z) :
  0 <= (randBits h g bits).2 <= 2 ^ (bits mod 32) - 1 /\
  (bits mod 32 = 0 -> (randBits h g bits).2 = 0).
Proof.
  pose proof (Z.mod_pos_bound bits 32) as Hk.
  destruct (randBits_result_mod h g bits) as [x ->].
  assert (0 < 2 ^ (bits mod 32)) by (apply Z.pow_pos_nonneg; lia).
  pose proof (Z.mod_pos_bound x (2 ^ (bits mod 32))).
  split; [lia|]. intros ->. apply Z.mod_1_r.
Qed.

(** ** Serving several requests from one cached word *)

Section Cache.

(** A request that the cache can serve. *)
Lemma randBits_hit (h : heap) (g : WELL) (bits w : Z) :
  1 <= bits <= 31 -> 0 <= next_bit g -> next_bit g + bits <= 32 ->
  bit_state g = Num w ->
  randBits h g bits =
  (h, mkWELL (_state g) (_n g) (next_bit g + bits) (Num w),
   field w (next_bit g) bits).
Proof.
  intros Hb Hoff Hle Hw. rewrite randBits_unfold.
  destruct (decide (bits + next_bit g <= 32)); [|lia].
  rewrite add_small by lia.
  rewrite sar_mask_logical by lia. rewrite Hw. unfold field, JS.shr.
  cbn [JS.operand]. rewrite ToUint32_ToInt32. reflexivity.
Qed.

(** A request that the cache cannot serve. *)
Lemma randBits_miss (h : heap) (g : WELL) (bits : Z) :
  1 <= bits <= 31 -> 32 < next_bit g + bits ->
  randBits h g bits =
  ((rand h g true).1.1,
   mkWELL (_state g) (_n (rand h g true).1.2) bits (Num (rand h g true).2),
   field (rand h g true).2 0 bits).
Proof.
  intros Hb Hgt. rewrite randBits_unfold.
  destruct (decide (bits + next_bit g <= 32)); [lia|].
  rewrite sar_mask_logical by lia. unfold field, JS.shr.
  cbn [JS.operand]. rewrite ToUint32_ToInt32.
  rewrite (proj1 (rand_cache h g true)). reflexivity.
Qed.

Lemma exec_randBits (h : heap) (g : WELL) (bits : Z) :
  exec h g (RandBits bits) =
  ((randBits h g bits).1, OInt (randBits h g bits).2).
Proof.
  cbn [exec]. destruct (randBits h g bits) as [[h' g'] r]. reflexivity.
Qed.

Lemma randBits_hits (k : nat) (h : heap) (g : WELL) (bits w : Z) :
  1 <= bits <= 31 -> 0 <= next_bit g ->
  next_bit g + Z.of_nat k * bits <= 32 ->
  bit_state g = Num w ->
  run h g (replicate k (RandBits bits)) =
  (h, mkWELL (_state g) (_n g) (next_bit g + Z.of_nat k * bits) (bit_state g),
   map (fun i => OInt (field w (next_bit g + Z.of_nat i * bits) bits))
       (seq 0 k)).
Proof.
  intros Hb. revert g. induction k as [|k IH]; intros g Hoff Hle Hw.
  - cbn. rewrite Z.add_0_r. destruct g; reflexivity.
  - cbn [replicate]. rewrite run_cons, exec_randBits.
    rewrite (randBits_hit h g bits w) by (try assumption; lia).
    cbn [fst snd].
    rewrite IH; cbn [next_bit bit_state _state _n]; [|lia|lia|reflexivity].
    rewrite Hw. cbn [fst snd]. f_equal; [f_equal; f_equal; lia|].
    cbn [seq map]. rewrite Z.mul_0_l, Z.add_0_r. f_equal.
    rewrite <- seq_shift, map_map. apply map_ext. intros i.
    do 2 f_equal. lia.
Qed.

End Cache.

(** X13. Amortisation.  When the cache cannot serve a request of [bits]
    bits (as on a new generator), m + 1 consecutive [randBits(bits)]
    calls with (m + 1) * bits <= 32 perform exactly one transition step:
    heap and pointer end as after one [rand(true)], and the i-th result
    is the i-th [bits]-wide field of the word that step produced. *)
Theorem randBits_amortised (m : nat) (h : heap) (g : WELL) (bits : Z) :
  1 <= bits <= 31 -> 32 < next_bit g + bits ->
  Z.of_nat (S m) * bits <= 32 ->
  run h g (replicate (S m) (RandBits bits)) =
  ((rand h g true).1.1,
   mkWELL (_state g) (_n (rand h g true).1.2) (Z.of_nat (S m) * bits)
          (Num (rand h g true).2),
   map (fun i => OInt (field (rand h g true).2 (Z.of_nat i * bits) bits))
       (seq 0 (S m))).
Proof.
  intros Hb Hgt Hle. cbn [replicate].
  rewrite run_cons, exec_randBits, randBits_miss by assumption.
  destruct (rand h g true) as [[h1 g1] w]. cbn [fst snd].
  rewrite (randBits_hits m h1 (mkWELL (_state g) (_n g1) bits (Num w)) bits w);
    cbn [next_bit bit_state _state _n]; [|lia|lia|lia|reflexivity].
  cbn [fst snd]. f_equal; [f_equal; f_equal; lia|].
  cbn [seq map]. rewrite Z.mul_0_l. f_equal.
  rewrite <- seq_shift, map_map. apply map_ext. intros i.
  do 2 f_equal. lia.
Qed.

Lemma randBits_amortised_witness :
  (1 <= 8 <= 31 /\ 32 < next_bit (mkWELL 1 0 32 Undefined) + 8 /\
   Z.of_nat 4 * 8 <= 32) /\
  (run (world (zeros_but 3 1)) (mkWELL 1 0 32 Undefined)
       (replicate 4 (RandBits 8))).2
  = [OInt 129; OInt 0; OInt 0; OInt 0].
Proof.
  split; [cbn; lia|].
  rewrite (randBits_amortised 3 (world (zeros_but 3 1))
             (mkWELL 1 0 32 Undefined) 8); [|lia|cbn; lia|lia].
  vm_compute. reflexivity.
Defined.

(** ** Invariants along a sequence of calls *)

Section Runs.

Lemma exec_keeps (h : heap) (g : WELL) (c : call) :
  inv h g -> Forall int32_word (vector h g) ->
  inv (exec h g c).1.1 (exec h g c).1.2 /\
  Forall int32_word (vector (exec h g c).1.1 (exec h g c).1.2) /\
  dom (exec h g c).1.1 = dom h.
Proof.
  intros [(s & Hs & Hlen) Hn] Hw.
  assert (Hv : vector h g = s) by (apply vector_lookup, Hs).
  destruct (exec_shape h g c) as (nb & bs & [E|E]); rewrite E; cbn [fst snd].
  - split; [|split; [|reflexivity]].
    + split; [exists s; cbn [_state]; auto | exact Hn].
    + unfold vector in *. cbn [_state]. exact Hw.
  - pose proof (rand_core_length (vector h g) (_n g)) as Hl.
    rewrite Hv in *. specialize (Hl Hlen Hn).
    rewrite vector_insert by reflexivity.
    split; [|split].
    + split; [|cbn [_n]; apply rand_core_pointer].
      eexists. cbn [_state]. rewrite lookup_insert_eq. eauto.
    + unfold rand_core. cbn [fst snd].
      pose proof (band_31_range (JS.add (_n g) 31)).
      apply set_int32; [apply bxor_int32 | rewrite set_length_inside; lia |].
      apply set_int32; [apply bxor_int32 | lia | exact Hw].
    + apply dom_insert_lookup_L. eauto.
Qed.

Lemma run_keeps (cs : list call) (h : heap) (g : WELL) :
  inv h g -> Forall int32_word (vector h g) ->
  inv (run h g cs).1.1 (run h g cs).1.2 /\
  Forall int32_word (vector (run h g cs).1.1 (run h g cs).1.2) /\
  dom (run h g cs).1.1 = dom h.
Proof.
  revert h g. induction cs as [|c cs IH]; intros h g Hi Hw.
  - cbn. auto.
  - rewrite run_cons. cbn [fst snd].
    destruct (exec_keeps h g c Hi Hw) as (Hi' & Hw' & Hd').
    destruct (IH _ _ Hi' Hw') as (Hi'' & Hw'' & Hd'').
    split; [exact Hi''|]. split; [exact Hw''|]. congruence.
Qed.

(** No call binds or unbinds a reference, whatever the array holds. *)
Lemma exec_dom (h : heap) (g : WELL) (c : call) :
  is_Some (h !! _state g) ->
  dom (exec h g c).1.1 = dom h /\
  is_Some ((exec h g c).1.1 !! _state (exec h g c).1.2).
Proof.
  intros Hb.
  destruct (exec_shape h g c) as (nb & bs & [E|E]); rewrite E;
    cbn [fst snd _state].
  - auto.
  - rewrite lookup_insert_eq. split; [|eauto].
    apply dom_insert_lookup_L. exact Hb.
Qed.

Lemma run_dom (cs : list call) (h : heap) (g : WELL) :
  is_Some (h !! _state g) -> dom (run h g cs).1.1 = dom h.
Proof.
  revert h g. induction cs as [|c cs IH]; intros h g Hb.
  - reflexivity.
  - rewrite run_cons. cbn [fst snd].
    destruct (exec_dom h g c Hb) as [Hd Hb'].
    rewrite IH by exact Hb'. exact Hd.
Qed.

(** Results of well-formed calls are in their documented ranges. *)
Lemma exec_in_range (h : heap) (g : WELL) (c : call) :
  well_formed c -> in_range c (exec h g c).2.
Proof.
  destruct c as [b|b|a b|bits]; cbn [well_formed exec]; intros Hc.
  - pose proof (rand_result h g b) as Hr.
    pose proof (rand_core_word_int32 (vector h g) (_n g)) as Hw.
    pose proof (Z.mod_pos_bound (rand_core (vector h g) (_n g)).2 (2 ^ 31)).
    destruct (rand h g b) as [[h' g'] r]. cbn [snd in_range] in *.
    destruct b; lia.
  - destruct (random h g b) as [[h' g'] f]. exact I.
  - destruct Hc as [Hab Hx]. pose proof (rand_false_range h g) as Hr.
    pose proof (randInt_exact h g a b Hx) as E. destruct Hx as [Ha Hb].
    generalize dependent ((rand h g false).2). intros r Hr E.
    destruct (randInt h g a b) as [[h' g'] o]. cbn [fst snd] in *. subst o.
    unfold JS.rem. destruct (decide (1 + b - a = 0)); [lia|].
    cbn [mbind option_bind in_range]. rewrite Z.rem_mod_nonneg by lia.
    pose proof (Z.mod_pos_bound r (1 + b - a)). lia.
  - assert (R : 0 <= (randBits h g bits).2 <= 2 ^ bits - 1).
    { rewrite randBits_unfold.
      destruct (decide (bits + next_bit g <= 32)); cbn [snd];
        apply band_mask_range; exact Hc. }
    destruct (randBits h g bits) as [[h' g'] r]. exact R.
Qed.

Lemma run_in_range (cs : list call) (h : heap) (g : WELL) :
  Forall well_formed cs -> Forall2 in_range cs (run h g cs).2.
Proof.
  revert h g. induction cs as [|c cs IH]; intros h g Hcs.
  - constructor.
  - apply Forall_cons in Hcs as [Hc Hcs]. rewrite run_cons. cbn [snd].
    constructor; [apply exec_in_range, Hc | apply IH, Hcs].
Qed.

(** With calls inside their documented ranges the cache offset stays
    within [0, 32]. *)
Lemma run_offset (cs : list call) (h : heap) (g : WELL) :
  Forall well_formed cs -> 0 <= next_bit g <= 32 ->
  0 <= next_bit (run h g cs).1.2 <= 32.
Proof.
  revert h g. induction cs as [|c cs IH]; intros h g Hcs Hnb.
  - exact Hnb.
  - apply Forall_cons in Hcs as [Hc Hcs]. rewrite run_cons. cbn [fst snd].
    apply IH; [exact Hcs|].
    destruct c as [b|b|a b|bits].
    + rewrite (exec_cache_free h g (Rand b)) by reflexivity.
      rewrite (proj1 (proj2 (rand_cache h g false))). exact Hnb.
    + rewrite (exec_cache_free h g (Random b)) by reflexivity.
      rewrite (proj1 (proj2 (rand_cache h g false))). exact Hnb.
    + rewrite (exec_cache_free h g (RandInt a b)) by reflexivity.
      rewrite (proj1 (proj2 (rand_cache h g false))). exact Hnb.
    + rewrite exec_randBits. cbn [fst]. apply randBits_offset; assumption.
Qed.

End Runs.

(** ** Vectors that agree modulo 2^32 *)

Section Congruence.

Lemma rand_core_congruent (s1 s2 : list value) (n : Z) :
  Forall2 congruent s1 s2 ->
  (rand_core s1 n).2 = (rand_core s2 n).2 /\
  (rand_core s1 n).1.2 = (rand_core s2 n).1.2 /\
  Forall2 congruent (rand_core s1 n).1.1 (rand_core s2 n).1.1.
Proof.
  intros Hs.
  assert (R : forall i, JS.operand (JS.get s1 i) = JS.operand (JS.get s2 i))
    by (intros i; apply (get_congruent s1 s2 i Hs)).
  unfold rand_core. cbn [fst snd]. rewrite !R.
  split; [reflexivity|]. split; [reflexivity|].
  apply set_congruent, set_congruent, Hs.
Qed.

Lemma rand_sim (h1 : heap) (g1 : WELL) (h2 : heap) (g2 : WELL) (b : bool) :
  sim h1 g1 h2 g2 ->
  (rand h1 g1 b).2 = (rand h2 g2 b).2 /\
  sim (rand h1 g1 b).1.1 (rand h1 g1 b).1.2
      (rand h2 g2 b).1.1 (rand h2 g2 b).1.2.
Proof.
  intros (Hv & Hn & Hnb & Hbs).
  destruct (rand_core_congruent _ _ (_n g1) Hv) as (Ew & En & Es).
  unfold sim.
  destruct (rand_cache h1 g1 b) as (_ & -> & ->).
  destruct (rand_cache h2 g2 b) as (_ & -> & ->).
  rewrite !rand_result, !rand_vector, !rand_pointer, <- Hn, Ew.
  auto.
Qed.

Lemma exec_sim (h1 : heap) (g1 : WELL) (h2 : heap) (g2 : WELL) (c : call) :
  sim h1 g1 h2 g2 ->
  (exec h1 g1 c).2 = (exec h2 g2 c).2 /\
  sim (exec h1 g1 c).1.1 (exec h1 g1 c).1.2
      (exec h2 g2 c).1.1 (exec h2 g2 c).1.2.
Proof.
  intros Hs. pose proof Hs as (Hv & Hn & Hnb & Hbs).
  destruct c as [b|b|a b|bits]; cbn [exec].
  - destruct (rand_sim h1 g1 h2 g2 b Hs) as [Ho Hs'].
    destruct (rand h1 g1 b) as [[? ?] ?], (rand h2 g2 b) as [[? ?] ?].
    cbn [fst snd] in *. subst. auto.
  - rewrite !random_unfold.
    destruct (rand_sim h1 g1 h2 g2 b Hs) as [Ho Hs'].
    destruct (rand h1 g1 b) as [[? ?] ?], (rand h2 g2 b) as [[? ?] ?].
    cbn [fst snd] in *. subst. auto.
  - rewrite !randInt_unfold.
    destruct (rand_sim h1 g1 h2 g2 false Hs) as [Ho Hs'].
    destruct (rand h1 g1 false) as [[? ?] ?], (rand h2 g2 false) as [[? ?] ?].
    cbn [fst snd] in *. subst. auto.
  - rewrite !randBits_unfold. rewrite Hnb, Hbs.
    destruct (decide (bits + next_bit g2 <= 32)).
    + cbn [fst snd]. split; [reflexivity|]. unfold sim, vector in *.
      cbn [_state _n next_bit bit_state]. auto.
    + destruct (rand_sim h1 g1 h2 g2 true Hs) as (Ho & Hv' & Hn' & _).
      destruct (rand h1 g1 true) as [[? ?] ?], (rand h2 g2 true) as [[? ?] ?].
      cbn [fst snd] in *. subst. unfold sim, vector in *.
      cbn [_state _n next_bit bit_state]. auto.
Qed.

Lemma run_sim (cs : list call) (h1 : heap) (g1 : WELL) (h2 : heap) (g2 : WELL) :
  sim h1 g1 h2 g2 ->
  (run h1 g1 cs).2 = (run h2 g2 cs).2 /\
  sim (run h1 g1 cs).1.1 (run h1 g1 cs).1.2
      (run h2 g2 cs).1.1 (run h2 g2 cs).1.2.
Proof.
  revert h1 g1 h2 g2. induction cs as [|c cs IH]; intros h1 g1 h2 g2 Hs.
  - cbn. auto.
  - rewrite !run_cons. cbn [fst snd].
    destruct (exec_sim h1 g1 h2 g2 c Hs) as [Ho Hs'].
    destruct (IH _ _ _ _ Hs') as [Hos Hs''].
    rewrite Ho, Hos. auto.
Qed.

End Congruence.

(** X14. A sequence of calls changes nothing but the generator's own
    array: the generator keeps its array reference, no array is created
    or removed, and every other array of the heap is left as it was. *)
Theorem calls_keep_to_own_array (cs : list call) (h : heap) (g : WELL) :
  valid h g ->
  _state (run h g cs).1.2 = _state g /\
  dom (run h g cs).1.1 = dom h /\
  forall r, r ≠ _state g -> (run h g cs).1.1 !! r = h !! r.
Proof.
  intros (s & Hs & _). destruct (run_frame cs h g) as [E F].
  split; [exact E|]. split; [|exact F]. apply run_dom. eauto.
Qed.

Lemma calls_keep_to_own_array_witness :
  valid (world zeros) (mkWELL 1 0 32 Undefined) /\
  dom (run (world zeros) (mkWELL 1 0 32 Undefined)
           [RandBits 3; Rand true]).1.1
  = dom (world zeros).
Proof.
  assert (H : valid (world zeros) (mkWELL 1 0 32 Undefined))
    by (exists zeros; split; reflexivity).
  split; [exact H|].
  apply (calls_keep_to_own_array [RandBits 3; Rand true] (world zeros)
           (mkWELL 1 0 32 Undefined) H).
Defined.

(** X15. Generator instances do not interfere.  When two generators hold
    different arrays, calls on the first leave the vector of the second
    as it was, and the second then gives the outputs it would have given
    had the first never been used. *)
Theorem instances_do_not_interfere
  (h : heap) (g1 g2 : WELL) (cs1 cs2 : list call) :
  _state g1 ≠ _state g2 ->
  vector (run h g1 cs1).1.1 g2 = vector h g2 /\
  (run (run h g1 cs1).1.1 g2 cs2).2 = (run h g2 cs2).2.
Proof.
  intros Hne.
  assert (Hv : vector (run h g1 cs1).1.1 g2 = vector h g2).
  { unfold vector. rewrite !lookup_total_alt.
    rewrite (proj2 (run_frame cs1 h g1)) by congruence. reflexivity. }
  split; [exact Hv|]. apply run_same. unfold same. auto.
Qed.

Lemma instances_do_not_interfere_witness :
  _state (mkWELL 1 0 32 Undefined) ≠ _state (mkWELL 2 0 32 Undefined) /\
  (run (run (<[2%positive := zeros_but 3 1]> (world zeros))
            (mkWELL 1 0 32 Undefined) [Rand true]).1.1
       (mkWELL 2 0 32 Undefined) [Rand false]).2
  = (run (<[2%positive := zeros_but 3 1]> (world zeros))
         (mkWELL 2 0 32 Undefined) [Rand false]).2.
Proof.
  assert (H : _state (mkWELL 1 0 32 Undefined)
              ≠ _state (mkWELL 2 0 32 Undefined)) by (cbn; lia).
  split; [exact H|].
  apply (instances_do_not_interfere
           (<[2%positive := zeros_but 3 1]> (world zeros))
           (mkWELL 1 0 32 Undefined) (mkWELL 2 0 32 Undefined)
           [Rand true] [Rand false] H).
Defined.

(** X16. A state vector of signed 32-bit numbers stays one: from a
    32-entry vector of such numbers and a pointer in [0, 32), any
    sequence of calls leaves 32 entries that are all numbers of the
    signed 32-bit range, and a pointer in [0, 32). *)
Theorem words_stay_int32 (cs : list call) (h : heap) (g : WELL) :
  inv h g -> Forall int32_word (vector h g) ->
  inv (run h g cs).1.1 (run h g cs).1.2 /\
  Forall int32_word (vector (run h g cs).1.1 (run h g cs).1.2).
Proof.
  intros Hi Hw. destruct (run_keeps cs h g Hi Hw) as (Hi' & Hw' & _). auto.
Qed.

Lemma words_stay_int32_witness :
  (inv (world (zeros_but 3 1)) (mkWELL 1 0 32 Undefined) /\
   Forall int32_word (vector (world (zeros_but 3 1))
                             (mkWELL 1 0 32 Undefined))) /\
  Forall int32_word
    (vector (run (world (zeros_but 3 1)) (mkWELL 1 0 32 Undefined)
                 [Rand true; RandBits 5]).1.1
            (run (world (zeros_but 3 1)) (mkWELL 1 0 32 Undefined)
                 [Rand true; RandBits 5]).1.2).
Proof.
  assert (Hi : inv (world (zeros_but 3 1)) (mkWELL 1 0 32 Undefined)).
  { split; [exists (zeros_but 3 1); split; reflexivity | cbn; lia]. }
  assert (Hw : Forall int32_word (vector (world (zeros_but 3 1))
                                         (mkWELL 1 0 32 Undefined))).
  { change (Forall int32_word (zeros_but 3 1)).
    repeat constructor; eexists; (split; [reflexivity | lia]). }
  split; [split; assumption|].
  apply (words_stay_int32 [Rand true; RandBits 5] (world (zeros_but 3 1))
           (mkWELL 1 0 32 Undefined) Hi Hw).
Defined.

(** X17. Range safety.  For any state and any sequence of calls within
    the documented arguments ([randInt(a, b)] with a <= b, both strictly
    between -2^52 and 2^52, [randBits] with 1 to 31 bits), every integer
    result is in its documented range:
    [rand()] in [0, 2^31 - 1], [rand(true)] in [-2^31, 2^31 - 1],
    [randInt(a, b)] in [a, b], [randBits(bits)] in [0, 2^bits - 1]; and
    a cache offset that starts in [0, 32] ends in [0, 32]. *)
Theorem outputs_in_range (cs : list call) (h : heap) (g : WELL) :
  Forall well_formed cs ->
  Forall2 in_range cs (run h g cs).2 /\
  (0 <= next_bit g <= 32 -> 0 <= next_bit (run h g cs).1.2 <= 32).
Proof.
  intros Hcs. split; [apply run_in_range, Hcs|].
  intros Hnb. apply run_offset; assumption.
Qed.

Lemma outputs_in_range_witness :
  Forall well_formed [RandInt 2 12; RandBits 3; Rand true] /\
  Forall2 in_range [RandInt 2 12; RandBits 3; Rand true]
    (run (world (zeros_but 3 1)) (mkWELL 1 0 32 Undefined)
         [RandInt 2 12; RandBits 3; Rand true]).2.
Proof.
  assert (H : Forall well_formed [RandInt 2 12; RandBits 3; Rand true])
    by (repeat constructor; cbn; lia).
  split; [exact H|].
  apply (outputs_in_range [RandInt 2 12; RandBits 3; Rand true]
           (world (zeros_but 3 1)) (mkWELL 1 0 32 Undefined) H).
Defined.

(** X18. Only the low 32 bits of the seed words count.  Two generators
    constructed from 32-entry seeds whose corresponding entries carry
    the same 32 bits (for instance a word given as 4294967295 in one
    seed and as -1 in the other, or equal seeds held in different
    arrays) give the same outputs for every sequence of calls. *)
Theorem seed_words_modulo_2_32
  (rnd1 rnd2 : nat -> Z) (h1 h2 : heap) (src1 src2 : ref)
  (s1 s2 : list value) (cs : list call) :
  h1 !! src1 = Some s1 -> h2 !! src2 = Some s2 ->
  length s1 = 32%nat -> Forall2 congruent s1 s2 ->
  exists h1' g1 h2' g2,
    construct rnd1 h1 (Some src1) = (h1', Ok g1) /\
    construct rnd2 h2 (Some src2) = (h2', Ok g2) /\
    (run h1' g1 cs).2 = (run h2' g2 cs).2.
Proof.
  intros H1 H2 Hlen Hc.
  assert (E1 : h1 !!! src1 = s1) by (apply lookup_total_correct, H1).
  assert (E2 : h2 !!! src2 = s2) by (apply lookup_total_correct, H2).
  assert (Hlen2 : length s2 = 32%nat)
    by (rewrite <- (Forall2_length _ _ _ Hc); exact Hlen).
  eexists _, _, _, _.
  split; [apply construct_seed; congruence|].
  split; [apply construct_seed; congruence|].
  apply run_sim. unfold sim, vector. cbn [_state _n next_bit bit_state].
  rewrite !lookup_total_insert_eq, E1, E2. auto.
Qed.

Lemma seed_words_modulo_2_32_witness :
  (world (zeros_but 3 4294967295) !! 1%positive
   = Some (zeros_but 3 4294967295) /\
   world (zeros_but 3 (-1)) !! 1%positive = Some (zeros_but 3 (-1)) /\
   length (zeros_but 3 4294967295) = 32%nat /\
   Forall2 congruent (zeros_but 3 4294967295) (zeros_but 3 (-1))) /\
  exists h1' g1 h2' g2,
    construct (fun _ => 0) (world (zeros_but 3 4294967295)) (Some 1%positive)
    = (h1', Ok g1) /\
    construct (fun _ => 1) (world (zeros_but 3 (-1))) (Some 1%positive)
    = (h2', Ok g2) /\
    (run h1' g1 [Rand true; RandBits 4]).2
    = (run h2' g2 [Rand true; RandBits 4]).2.
Proof.
  assert (Hc : Forall2 congruent (zeros_but 3 4294967295) (zeros_but 3 (-1)))
    by (repeat constructor).
  split; [repeat split; try reflexivity; exact Hc|].
  apply (seed_words_modulo_2_32 (fun _ => 0) (fun _ => 1)
           (world (zeros_but 3 4294967295)) (world (zeros_but 3 (-1)))
           1%positive 1%positive (zeros_but 3 4294967295) (zeros_but 3 (-1))
           [Rand true; RandBits 4]);
    [reflexivity | reflexivity | reflexivity | exact Hc].
Defined.

(** Witnesses for the two agreement lemmas on imported generators. *)
Lemma import_deterministic_witness :
  (world zeros !!! 1%positive = world zeros !!! 1%positive /\
   next_bit (mkWELL 1 0 32 Undefined) = next_bit (mkWELL 1 9 32 Undefined)) /\
  (run (set_state (world zeros) (mkWELL 1 0 32 Undefined) 1%positive
                  (Num 5)).1.1
       (set_state (world zeros) (mkWELL 1 0 32 Undefined) 1%positive
                  (Num 5)).1.2 [RandBits 3]).2
  = (run (set_state (world zeros) (mkWELL 1 9 32 Undefined) 1%positive
                    (Num 5)).1.1
         (set_state (world zeros) (mkWELL 1 9 32 Undefined) 1%positive
                    (Num 5)).1.2 [RandBits 3]).2.
Proof.
  split; [split; reflexivity|].
  apply (import_deterministic (world zeros) (mkWELL 1 0 32 Undefined)
           1%positive (world zeros) (mkWELL 1 9 32 Undefined) 1%positive
           (Num 5)); reflexivity.
Defined.

Lemma import_deterministic_cache_free_witness :
  (world zeros !!! 1%positive = world zeros !!! 1%positive /\
   forallb cache_free [Rand true; RandInt 1 6] = true) /\
  (run (set_state (world zeros) (mkWELL 1 0 7 (Num 99)) 1%positive
                  (Num 5)).1.1
       (set_state (world zeros) (mkWELL 1 0 7 (Num 99)) 1%positive
                  (Num 5)).1.2 [Rand true; RandInt 1 6]).2
  = (run (set_state (world zeros) (mkWELL 1 9 32 Undefined) 1%positive
                    (Num 5)).1.1
         (set_state (world zeros) (mkWELL 1 9 32 Undefined) 1%positive
                    (Num 5)).1.2 [Rand true; RandInt 1 6]).2.
Proof.
  split; [split; reflexivity|].
  apply (import_deterministic_cache_free (world zeros)
           (mkWELL 1 0 7 (Num 99)) 1%positive (world zeros)
           (mkWELL 1 9 32 Undefined) 1%positive (Num 5)); reflexivity.
Defined.

(** X21. bench.js.  Whatever the host's random source delivers, the
    generator of the benchmark is constructed without error, and after
    the five timed loops, run for any number of rounds, it still has a
    32-entry vector of signed 32-bit numbers, a pointer in [0, 32) and a
    cache offset in [0, 32]; every [randInt(2, 12)] result lies in
    [2, 12], every [randBits(3)] result in [0, 7] and every [rand()]
    result in [0, 2^31 - 1]. *)
Theorem bench_is_safe (rnd : nat -> Z) (iter : nat) :
  exists h g,
    bench_generator rnd = (h, Ok g) /\
    Forall2 in_range (bench_calls iter) (run h g (bench_calls iter)).2 /\
    inv (run h g (bench_calls iter)).1.1 (run h g (bench_calls iter)).1.2 /\
    Forall int32_word
      (vector (run h g (bench_calls iter)).1.1
              (run h g (bench_calls iter)).1.2) /\
    0 <= next_bit (run h g (bench_calls iter)).1.2 <= 32.
Proof.
  destruct (genstate_words rnd) as [Hlen Hw].
  assert (E : bench_state rnd
              = map (fun i => Num (JS.bor 0 (rnd i))) (seq 0 32))
    by reflexivity.
  rewrite <- E in Hlen, Hw.
  unfold bench_generator, alloc.
  set (r := fresh (dom (∅ : heap))).
  set (h0 := <[r := bench_state rnd]> (∅ : heap)).
  assert (E0 : h0 !!! r = bench_state rnd) by apply lookup_total_insert_eq.
  eexists _, _. split; [apply construct_seed; rewrite E0; exact Hlen|].
  rewrite E0.
  set (h1 := <[fresh (dom h0) := bench_state rnd]> h0).
  set (g := mkWELL (fresh (dom h0)) 0 32 Undefined).
  assert (Hv : vector h1 g = bench_state rnd).
  { unfold vector. cbn [_state]. apply lookup_total_insert_eq. }
  assert (Hi : inv h1 g).
  { split; [|cbn; lia]. exists (bench_state rnd). cbn [_state].
    unfold h1. rewrite lookup_insert_eq. auto. }
  assert (Hwf : Forall well_formed (bench_calls iter)).
  { unfold bench_calls. rewrite !Forall_app.
    repeat split; apply Forall_replicate; cbn; unfold exact_args;
      try exact I; lia. }
  split; [apply run_in_range, Hwf|].
  rewrite <- Hv in Hw.
  destruct (run_keeps (bench_calls iter) h1 g Hi Hw) as (Hi' & Hw' & _).
  split; [exact Hi'|]. split; [exact Hw'|].
  apply run_offset; [exact Hwf | cbn; lia].
Qed.

(** Witnesses for the properties whose conditions sit inside the
    statement. *)
Lemma step_footprint_witness :
  (5 ≠ _n (mkWELL 1 0 32 Undefined) /\
   5 ≠ (_n (mkWELL 1 0 32 Undefined) + 31) mod 32) /\
  JS.get (vector (rand (world (zeros_but 5 9)) (mkWELL 1 0 32 Undefined)
                       true).1.1
                 (rand (world (zeros_but 5 9)) (mkWELL 1 0 32 Undefined)
                       true).1.2) 5
  = JS.get (vector (world (zeros_but 5 9)) (mkWELL 1 0 32 Undefined)) 5.
Proof.
  assert (H1 : 5 ≠ _n (mkWELL 1 0 32 Undefined)) by (cbn; lia).
  assert (H2 : 5 ≠ (_n (mkWELL 1 0 32 Undefined) + 31) mod 32)
    by (vm_compute; discriminate).
  split; [split; assumption|].
  apply (proj1 (step_footprint (world (zeros_but 5 9))
                  (mkWELL 1 0 32 Undefined) true) 5 H1 H2).
Defined.

Lemma randBits_width_mod_32_witness :
  32 mod 32 = 0 /\
  (randBits (world (zeros_but 3 1)) (mkWELL 1 0 32 Undefined) 32).2 = 0.
Proof.
  split; [reflexivity|].
  apply (proj2 (randBits_width_mod_32 (world (zeros_but 3 1))
                  (mkWELL 1 0 32 Undefined) 32)).
  reflexivity.
Defined.

Lemma construct_without_seed_witness :
  1%positive ∈ dom (world zeros) /\
  (construct (fun i => Z.of_nat i) (world zeros) None).1 !! 1%positive
  = world zeros !! 1%positive.
Proof.
  assert (H : 1%positive ∈ dom (world zeros))
    by (apply elem_of_dom; exists zeros; reflexivity).
  split; [exact H|].
  destruct (construct_without_seed (fun i => Z.of_nat i) (world zeros))
    as (h' & g & E & _ & _ & _ & _ & _ & F).
  rewrite E. apply F, H.
Defined.
